(** * GeneticAlgorithms toolkit: crossover operators and the generational solver

    A shallow embedding of [source/crossovers.h] and of the [solve] function
    of [genetic_solver.h], with the properties the design document states
    about them.

    Conventions of the embedding:
    - a [boost::dynamic_bitset] is a [list bool]; an indexed access outside
      the current size is undefined in the source and yields [None] here;
    - [size_t] values that take part in arithmetic are [Z] with the
      wrap-around modulo [2^64] written out;
    - every functor that owns a [mutable] random engine is a state-passing
      function: it receives the object and returns the result together
      with the object after the call. *)

From Stdlib Require Import ZArith QArith Lia.
From stdpp Require Import base option list.

Local Open Scope Z_scope.

(** ** Genotypes *)

Abbreviation bitset := (list bool) (only parsing).

(** [Chromosome] wraps one [bitset] (constructed by
    [Chromosome(std::move(dest))]) and forwards [size()] and [operator[]]. *)
Abbreviation Chromosome := bitset (only parsing).

(** [bitset dest(n)]: [n] bits, all cleared. *)
Definition bitset_new (n : nat) : bitset := replicate n false.

(** [dest[i] = src[i]]: both accesses must be in range. *)
Definition assign_bit (dest : bitset) (i : nat) (src : bitset) : option bitset :=
  v ← src !! i;
  if decide (i < length dest)%nat then Some (<[i:=v]> dest) else None.

(** [for (size_t i = from; i < from + n; ++i) dest[i] = src[i];] *)
Fixpoint copy_bits (src : bitset) (from n : nat) (dest : bitset) : option bitset :=
  match n with
  | O => Some dest
  | S n' => dest' ← assign_bit dest from src; copy_bits src (S from) n' dest'
  end.

(** ** Random engine *)

Definition size_t_modulus : Z := 2 ^ 64.

(** [std::mt19937_64] and the [<random>] distributions are external to the
    toolkit; the engine is an opaque seeded stream.  The two distribution
    draws used by the operators are members of the interface, with the
    ranges the C++ standard gives them. *)
Class RandomEngine := {
  rng : Type;
  (** [std::mt19937_64 _rng(seed)] *)
  seed_rng : Z -> rng;
  (** [std::uniform_int_distribution<size_t>(lo, hi)(_rng)] *)
  uniform_int : Z -> Z -> rng -> Z * rng;
  uniform_int_range : forall lo hi g,
    lo <= hi -> lo <= fst (uniform_int lo hi g) <= hi;
  (** [std::uniform_real_distribution<float>(lo, hi)(_rng)]; the drawn
      [float] is represented by the rational it denotes. *)
  uniform_real : Q -> Q -> rng -> Q * rng;
  uniform_real_range : forall lo hi g,
    (lo < hi)%Q -> (lo <= fst (uniform_real lo hi g))%Q /\ (fst (uniform_real lo hi g) < hi)%Q
}.

(** [x < y] on the rationals denoted by two finite [float]s. *)
Definition Qltb (x y : Q) : bool :=
  match (x ?= y)%Q with Lt => true | _ => false end.

(** A crossover functor: an object of type [F] called on two parents. *)
Class CrossOverFunctor (F : Type) :=
  cross_over : F -> Chromosome -> Chromosome -> option (Chromosome * F).

Section CrossOvers.
Context `{RandomEngine}.

(** *** RandomSplitCrossOver *)

Record RandomSplitCrossOver := {
  split_rng : rng;          (* _rng *)
  split_int_hi : Z          (* upper bound of _int_dist; the lower one is 0 *)
}.

(** The constructor [RandomSplitCrossOver(size_t N, unsigned seed)];
    [N-1] is computed in [size_t]. *)
Definition mk_RandomSplitCrossOver (N seed : Z) : RandomSplitCrossOver :=
  {| split_rng := seed_rng seed;
     split_int_hi := (N - 1) mod size_t_modulus |}.

Definition RandomSplitCrossOver_call (self : RandomSplitCrossOver)
    (a b : Chromosome) : option (Chromosome * RandomSplitCrossOver) :=
  let dest := bitset_new (length a) in
  let '(p, g1) := uniform_int 0 (split_int_hi self) (split_rng self) in
  let pos := Z.to_nat p in
  let '(c, g2) := uniform_int 0 1 g1 in
  let self' := {| split_rng := g2; split_int_hi := split_int_hi self |} in
  dest' ← (if c =? 0 then
             d ← copy_bits a 0 pos dest;
             copy_bits b pos (length b - pos) d
           else
             d ← copy_bits b 0 pos dest;
             copy_bits a pos (length a - pos) d);
  Some (dest', self').

#[export] Instance RandomSplitCrossOver_functor :
  CrossOverFunctor RandomSplitCrossOver := RandomSplitCrossOver_call.

(** *** RandomMixCrossOver *)

Record RandomMixCrossOver := {
  mix_rng : rng             (* _rng; _int_dist is fixed to (0, 1) *)
}.

Definition mk_RandomMixCrossOver (seed : Z) : RandomMixCrossOver :=
  {| mix_rng := seed_rng seed |}.

(** The body of the [for] loop, from index [i], for [n] more rounds. *)
Fixpoint mix_loop (a b : Chromosome) (i n : nat) (g : rng) (dest : bitset)
    : option (bitset * rng) :=
  match n with
  | O => Some (dest, g)
  | S n' =>
      let '(c, g') := uniform_int 0 1 g in
      dest' ← (if c =? 0 then assign_bit dest i a else assign_bit dest i b);
      mix_loop a b (S i) n' g' dest'
  end.

Definition RandomMixCrossOver_call (self : RandomMixCrossOver)
    (a b : Chromosome) : option (Chromosome * RandomMixCrossOver) :=
  let dest := bitset_new (length a) in
  '(dest', g') ← mix_loop a b 0 (length a) (mix_rng self) dest;
  Some (dest', {| mix_rng := g' |}).

#[export] Instance RandomMixCrossOver_functor :
  CrossOverFunctor RandomMixCrossOver := RandomMixCrossOver_call.

(** *** CrossOverOnProbWrapper *)

Record CrossOverOnProbWrapper (F : Type) := {
  wrap_rng : rng;           (* _rng; _real_dist is (0, 1), _binary_dist is (0, 1) *)
  wrap_prob : Q;            (* _prob *)
  wrap_crossover : F        (* _crossover, held by value *)
}.
Arguments wrap_rng {F}.
Arguments wrap_prob {F}.
Arguments wrap_crossover {F}.

Definition make_cross_over_on_prob {F} (seed : Z) (prob : Q) (crossover : F)
    : CrossOverOnProbWrapper F :=
  {| wrap_rng := seed_rng seed; wrap_prob := prob; wrap_crossover := crossover |}.

Definition CrossOverOnProbWrapper_call {F} `{CrossOverFunctor F}
    (self : CrossOverOnProbWrapper F) (a b : Chromosome)
    : option (Chromosome * CrossOverOnProbWrapper F) :=
  let '(u, g1) := uniform_real 0 1 (wrap_rng self) in
  if Qltb u (wrap_prob self) then
    '(child, f') ← cross_over (wrap_crossover self) a b;
    Some (child, {| wrap_rng := g1; wrap_prob := wrap_prob self;
                    wrap_crossover := f' |})
  else
    let '(c, g2) := uniform_int 0 1 g1 in
    Some (if c =? 0 then a else b,
          {| wrap_rng := g2; wrap_prob := wrap_prob self;
             wrap_crossover := wrap_crossover self |}).

#[export] Instance CrossOverOnProbWrapper_functor {F} `{CrossOverFunctor F} :
  CrossOverFunctor (CrossOverOnProbWrapper F) := CrossOverOnProbWrapper_call.

End CrossOvers.

Arguments wrap_rng {_ F}.
Arguments wrap_prob {_ F}.
Arguments wrap_crossover {_ F}.

(** ** The solver of [genetic_solver.h] *)

(** Calls to the five functors, recorded in order.  The record is ghost
    state: the source keeps no such log, the embedding adds it so that
    "operator X is (never) invoked" can be stated. *)
Inductive Event :=
| CallInitializer
| CallRank (c : Chromosome)
| CallSelection (count : Z)
| CallCrossOver (a b : Chromosome)
| CallMutation (c : Chromosome).

(** Outcome of a computation: a value, or undefined behaviour reached. *)
Inductive result (A : Type) :=
| Ok (a : A)
| Undefined.
Arguments Ok {A} a.
Arguments Undefined {A}.

Section Solver.
(** The rank type [T] with its [operator<]. *)
Context {T : Type} (ltb : T -> T -> bool).
(** Internal (mutable) states of the four stateful functors. *)
Context {SI SS SC SM : Type}.

Definition hypothesis : Type := Chromosome * T.   (* Population::Hypothesis *)
Definition couple : Type := Chromosome * Chromosome.   (* Chromosome::Couple *)

Variable init_func : SI -> Chromosome * SI.
Variable select_func : SS -> list hypothesis -> Z -> list couple * SS.
Variable cross_over_func : SC -> Chromosome -> Chromosome -> Chromosome * SC.
Variable mutate_func : SM -> Chromosome -> Chromosome * SM.
Variable rank_func : Chromosome -> T.

(** Everything a call of [solve] can change outside its locals. *)
Record World := {
  init_st : SI;
  select_st : SS;
  cross_st : SC;
  mutate_st : SM;
  calls : list Event
}.

Definition M (A : Type) : Type := World -> result A * World.

Definition ret {A} (a : A) : M A := fun w => (Ok a, w).

Definition bind {A B} (m : M A) (k : A -> M B) : M B :=
  fun w => match m w with
           | (Ok a, w') => k a w'
           | (Undefined, w') => (Undefined, w')
           end.

Definition undefined {A} : M A := fun w => (Undefined, w).

Notation "x <- m ;; k" := (bind m (fun x => k))
  (at level 100, m at next level, right associativity).

Definition record (e : Event) (w : World) : World :=
  {| init_st := init_st w; select_st := select_st w; cross_st := cross_st w;
     mutate_st := mutate_st w; calls := calls w ++ [e] |}.

(** [init_func()] *)
Definition call_init : M Chromosome := fun w =>
  let '(c, s) := init_func (init_st w) in
  (Ok c, record CallInitializer
           {| init_st := s; select_st := select_st w; cross_st := cross_st w;
              mutate_st := mutate_st w; calls := calls w |}).

(** [select_func(hypotheses, count)] *)
Definition call_select (hs : list hypothesis) (count : Z) : M (list couple) := fun w =>
  let '(cs, s) := select_func (select_st w) hs count in
  (Ok cs, record (CallSelection count)
            {| init_st := init_st w; select_st := s; cross_st := cross_st w;
               mutate_st := mutate_st w; calls := calls w |}).

(** [cross_over_func(a, b)] *)
Definition call_cross_over (a b : Chromosome) : M Chromosome := fun w =>
  let '(c, s) := cross_over_func (cross_st w) a b in
  (Ok c, record (CallCrossOver a b)
           {| init_st := init_st w; select_st := select_st w; cross_st := s;
              mutate_st := mutate_st w; calls := calls w |}).

(** [mutate_func(c)] *)
Definition call_mutate (c : Chromosome) : M Chromosome := fun w =>
  let '(c', s) := mutate_func (mutate_st w) c in
  (Ok c', record (CallMutation c)
            {| init_st := init_st w; select_st := select_st w; cross_st := cross_st w;
               mutate_st := s; calls := calls w |}).

(** [rank_func(c)] *)
Definition call_rank (c : Chromosome) : M T := fun w =>
  (Ok (rank_func c), record (CallRank c) w).

(** *** Population *)

(** Modelled from the spec: [population.h] is not among the sources, so
    the class [Population<RankFunctor, T>] follows section 3 of the design
    document: an ordered collection of hypotheses bound to one rank
    operator. *)
Definition Population : Type := list hypothesis.

(** Modelled from the spec: [Population::push] of the absent
    [population.h]: scores the genotype with the bound rank operator and
    inserts the resulting hypothesis, without deduplication. *)
Definition Population_push (P : Population) (c : Chromosome) : M Population :=
  r <- call_rank c ;;
  ret (P ++ [(c, r)]).

(** Modelled from the spec: the batch insert of [Population::init] of the
    absent [population.h]: one initializer call, scored and inserted. *)
Fixpoint init_loop (n : nat) (P : Population) : M Population :=
  match n with
  | O => ret P
  | S n' => c <- call_init ;; P' <- Population_push P c ;; init_loop n' P'
  end.

(** Modelled from the spec: [Population::init] of the absent
    [population.h]: calls the initializer exactly [n] times, scoring and
    inserting each result.  Its preconditions (an empty population,
    [n >= 1]) are the caller's business and are not checked. *)
Definition Population_init (P : Population) (n : Z) : M Population :=
  init_loop (Z.to_nat n) P.

(** Modelled from the spec: the scan behind [Population::top] of the
    absent [population.h]: the first-seen hypothesis of maximal rank among
    [h] and [l]. *)
Fixpoint first_max (h : hypothesis) (l : list hypothesis) : hypothesis :=
  match l with
  | [] => h
  | x :: l' => first_max (if ltb (snd h) (snd x) then x else h) l'
  end.

(** Modelled from the spec: the value of [Population::top] of the absent
    [population.h]: the hypothesis with maximal rank among the current
    members, ties broken by encounter order; none on an empty population. *)
Definition top_member (P : Population) : option hypothesis :=
  match P with
  | [] => None
  | h :: l => Some (first_max h l)
  end.

(** Modelled from the spec: [Population::top] of the absent
    [population.h]: fails/undefined on an empty population. *)
Definition Population_top (P : Population) : M hypothesis :=
  match top_member P with
  | None => undefined
  | Some h => ret h
  end.

(** Modelled from the spec: [Population::select] of the absent
    [population.h]: passes the full current set of hypotheses and the
    requested count to the selection operator and returns what it
    produces. *)
Definition Population_select (P : Population) (count : Z) : M (list couple) :=
  call_select P count.

(** Modelled from the spec: [Population::reset] of the absent
    [population.h]: empties the member collection. *)
Definition Population_reset (P : Population) : Population := [].

(** *** solve *)

(** The range-[for] over the selected couples (lines 105-107). *)
Fixpoint for_each_couple (couples : list couple) (next : Population) : M Population :=
  match couples with
  | [] => ret next
  | cpl :: rest =>
      child <- call_cross_over (fst cpl) (snd cpl) ;;
      mutant <- call_mutate child ;;
      next' <- Population_push next mutant ;;
      for_each_couple rest next'
  end.

(** [population_size - 1uL] in [size_t]. *)
Definition couples_requested (population_size : Z) : Z :=
  (population_size - 1) mod size_t_modulus.

(** The locals of [solve] that live across iterations. *)
Record Locals := {
  current : Population;
  next : Population;
  best : hypothesis
}.

(** One iteration of the outer loop (lines 105-114).  [current.top()] is
    evaluated in the condition and again in the assignment; it has no
    effect, so one evaluation stands for both. *)
Definition generation (population_size : Z) (l : Locals) : M Locals :=
  couples <- Population_select (current l) (couples_requested population_size) ;;
  filled <- for_each_couple couples (next l) ;;
  (* std::swap(current, next); next.reset(); *)
  let current1 := filled in
  let next1 := Population_reset (current l) in
  t <- Population_top current1 ;;
  let best1 := if ltb (snd (best l)) (snd t) then t else best l in
  (* elitism: the best one passes directly *)
  current2 <- Population_push current1 (fst best1) ;;
  ret {| current := current2; next := next1; best := best1 |}.

(** [for (size_t i = 0; i < num_iterations; ++i) ...] *)
Fixpoint generations (population_size : Z) (n : nat) (l : Locals) : M Locals :=
  match n with
  | O => ret l
  | S n' => l' <- generation population_size l ;; generations population_size n' l'
  end.

(** Lines 97-102: the two populations, the initial fill and the first
    [best]. *)
Definition seeding (population_size : Z) : M Locals :=
  cur <- Population_init [] population_size ;;
  b <- Population_top cur ;;
  ret {| current := cur; next := []; best := b |}.

Definition solve (num_iterations population_size : Z) : M Chromosome :=
  l <- seeding population_size ;;
  l' <- generations population_size (Z.to_nat num_iterations) l ;;
  ret (fst (best l')).

(** The contract of the selection operator (section 4.3 of the design
    document): exactly [count] couples are returned, for every [size_t]
    count. *)
Definition selection_exact : Prop :=
  forall s hs count, 0 <= count ->
    Z.of_nat (length (fst (select_func s hs count))) = count.

(** The calls the seeding phase may make. *)
Definition seeding_event (e : Event) : bool :=
  match e with
  | CallInitializer | CallRank _ => true
  | _ => false
  end.

(** "Not smaller" on ranks, from [operator<] alone. *)
Definition rank_le (x y : T) : Prop := x = y \/ ltb x y = true.

End Solver.


(** ** Concrete operators, used to run the definitions on inputs *)

(** A counter engine: the state is the number of draws made so far. *)
Definition counter_uniform_int (lo hi g : Z) : Z * Z :=
  (if lo <=? hi then lo + g mod (hi - lo + 1) else lo, g + 1).

Definition counter_uniform_real (lo hi : Q) (g : Z) : Q * Z := (lo, g + 1).

Lemma counter_uniform_int_range lo hi g :
  lo <= hi -> lo <= fst (counter_uniform_int lo hi g) <= hi.
Proof.
  intros Hle. unfold counter_uniform_int. cbn [fst].
  destruct (Z.leb_spec lo hi) as [_|Hgt]; [|lia].
  pose proof (Z.mod_pos_bound g (hi - lo + 1) ltac:(lia)). lia.
Qed.

Lemma counter_uniform_real_range lo hi g :
  (lo < hi)%Q ->
  (lo <= fst (counter_uniform_real lo hi g))%Q /\
  (fst (counter_uniform_real lo hi g) < hi)%Q.
Proof. intros Hlt. cbn [counter_uniform_real fst]. split; [apply Qle_refl | exact Hlt]. Qed.

Definition counter_engine : RandomEngine :=
  {| rng := Z;
     seed_rng := fun seed => seed;
     uniform_int := counter_uniform_int;
     uniform_int_range := counter_uniform_int_range;
     uniform_real := counter_uniform_real;
     uniform_real_range := counter_uniform_real_range |}.

(** Sample functors for [solve], with rank type [Z]: the rank of a
    genotype is the number of its set bits. *)
Definition sample_rank (c : Chromosome) : Z := Z.of_nat (length (filter (fun x => x = true) c)).

Definition sample_init (s : Z) : Chromosome * Z :=
  ([Z.odd s; Z.odd (s / 2); Z.odd (s / 4)], s + 1).

Definition sample_select (s : Z) (hs : list (Chromosome * Z)) (count : Z)
    : list (Chromosome * Chromosome) * Z :=
  (replicate (Z.to_nat count)
     (match hs with
      | h :: _ => (fst h, fst (List.last hs h))
      | [] => ([], [])
      end),
   s + 1).

Definition sample_cross_over (s : Z) (a b : Chromosome) : Chromosome * Z :=
  (take 1 a ++ drop 1 b, s + 1).

Definition sample_mutate (s : Z) (c : Chromosome) : Chromosome * Z :=
  (match c with x :: r => negb x :: r | [] => [] end, s + 1).

Definition sample_world (seed : Z) : @World Z Z Z Z :=
  {| init_st := seed; select_st := 0; cross_st := 0; mutate_st := 0; calls := [] |}.

Definition sample_solve (num_iterations population_size : Z) :=
  solve Z.ltb sample_init sample_select sample_cross_over sample_mutate sample_rank
    num_iterations population_size.

Definition sample_generation (population_size : Z) :=
  generation Z.ltb (SI:=Z) sample_select sample_cross_over sample_mutate sample_rank
    population_size.

Definition sample_generations (population_size : Z) (n : nat) :=
  generations Z.ltb (SI:=Z) sample_select sample_cross_over sample_mutate sample_rank
    population_size n.

Definition sample_seeding (population_size : Z) :=
  seeding Z.ltb (SS:=Z) (SC:=Z) (SM:=Z) sample_init sample_rank population_size.

(** ** Vocabulary for statements about draws, reuse and call logs *)

(** The values of [n] successive [uniform_int 0 1] draws, oldest first, and
    the engine after them: the coins a loop of [n] rounds sees. *)
Fixpoint coin_flips `{RandomEngine} (n : nat) (g : rng) : list Z * rng :=
  match n with
  | O => ([], g)
  | S n' =>
      let '(c, g1) := uniform_int 0 1 g in
      let '(cs, g2) := coin_flips n' g1 in
      (c :: cs, g2)
  end.

(** One functor object called on a list of parent pairs, in order, each
    call made on the object as the previous call left it: the way the loop
    of [solve] uses [cross_over_func]. *)
Fixpoint cross_over_all {F : Type} `{CrossOverFunctor F} (f : F)
    (pairs : list (list bool * list bool)) : option (list (list bool) * F) :=
  match pairs with
  | [] => Some ([], f)
  | ab :: rest =>
      '(child, f1) ← cross_over f (fst ab) (snd ab);
      '(children, f2) ← cross_over_all f1 rest;
      Some (child :: children, f2)
  end.

(** A crossover functor recombines at length [N] while its objects satisfy
    [Inv]: called on two parents of [N] bits it returns a child of [N]
    bits, each bit taken from one of the parents at the same position, and
    leaves an object that satisfies [Inv] again. *)
Definition recombines_at {F : Type} `{CrossOverFunctor F} (N : nat) (Inv : F -> Prop) : Prop :=
  forall (f : F) (a b : list bool),
    Inv f -> length a = N -> length b = N ->
    exists child f',
      cross_over f a b = Some (child, f') /\ Inv f' /\
      length child = N /\
      forall i, child !! i = a !! i \/ child !! i = b !! i.

(** Which functor an event is a call of. *)
Inductive Kind := KInitializer | KRank | KSelection | KCrossOver | KMutation.

Definition kind_of (e : Event) : Kind :=
  match e with
  | CallInitializer => KInitializer
  | CallRank _ => KRank
  | CallSelection _ => KSelection
  | CallCrossOver _ _ => KCrossOver
  | CallMutation _ => KMutation
  end.

Definition Kind_eqb (x y : Kind) : bool :=
  match x, y with
  | KInitializer, KInitializer | KRank, KRank | KSelection, KSelection
  | KCrossOver, KCrossOver | KMutation, KMutation => true
  | _, _ => false
  end.

(** Number of calls of kind [k] in a log. *)
Definition count_calls (k : Kind) (evs : list Event) : nat :=
  length (List.filter (fun e => Kind_eqb (kind_of e) k) evs).

(** The genotypes that were ranked, in order. *)
Fixpoint ranked (evs : list Event) : list (list bool) :=
  match evs with
  | [] => []
  | CallRank c :: rest => c :: ranked rest
  | _ :: rest => ranked rest
  end.

(** The counts that selection was asked for, in order. *)
Fixpoint requested (evs : list Event) : list Z :=
  match evs with
  | [] => []
  | CallSelection n :: rest => n :: requested rest
  | _ :: rest => requested rest
  end.

(** Calls made for one member of the initial fill, for one bred couple,
    and for one iteration that breeds [couples] couples. *)
Definition calls_per_member (k : Kind) : nat :=
  match k with KInitializer | KRank => 1 | _ => 0 end.

Definition calls_per_couple (k : Kind) : nat :=
  match k with KCrossOver | KMutation | KRank => 1 | _ => 0 end.

Definition calls_per_iteration (k : Kind) (couples : nat) : nat :=
  (match k with KSelection | KRank => 1 | _ => 0 end) + couples * calls_per_couple k.

(** ** Facts about bit copies *)

Lemma assign_bit_Some (dest src : bitset) (i : nat) :
  (i < length src)%nat -> (i < length dest)%nat ->
  exists v, src !! i = Some v /\ assign_bit dest i src = Some (<[i:=v]> dest).
Proof.
  intros Hs Hd. destruct (lookup_lt_is_Some_2 src i Hs) as [v Hv].
  exists v. split; [exact Hv|]. unfold assign_bit. rewrite Hv. cbn.
  destruct (decide (i < length dest)%nat); [reflexivity | contradiction].
Qed.

Lemma assign_bit_inv (dest src d : bitset) (i : nat) :
  assign_bit dest i src = Some d ->
  exists v, src !! i = Some v /\ (i < length dest)%nat /\ d = <[i:=v]> dest.
Proof.
  unfold assign_bit. destruct (src !! i) as [v|] eqn:Hv; cbn; [|discriminate].
  destruct (decide (i < length dest)%nat); [|discriminate].
  intros [= <-]. eauto.
Qed.

Lemma assign_bit_length (dest src d : bitset) (i : nat) :
  assign_bit dest i src = Some d -> length d = length dest.
Proof.
  intros (v & _ & _ & ->)%assign_bit_inv. apply length_insert.
Qed.

Lemma copy_bits_length (src : bitset) (n from : nat) (dest d : bitset) :
  copy_bits src from n dest = Some d -> length d = length dest.
Proof.
  revert from dest. induction n as [|n IH]; intros from dest; cbn.
  - by intros [= <-].
  - destruct (assign_bit dest from src) as [d1|] eqn:H1; cbn; [|discriminate].
    intros H2. rewrite (IH _ _ H2). eapply assign_bit_length, H1.
Qed.

(** A copy that stays in range succeeds and overwrites exactly the window
    [from, from + n). *)
Lemma copy_bits_window (src : bitset) (n from : nat) (dest : bitset) :
  (from + n <= length src)%nat -> (from + n <= length dest)%nat ->
  copy_bits src from n dest =
    Some (take from dest ++ take n (drop from src) ++ drop (from + n) dest).
Proof.
  revert from dest. induction n as [|n IH]; intros from dest Hs Hd; cbn [copy_bits].
  - rewrite take_0, Nat.add_0_r. cbn. by rewrite take_drop.
  - destruct (assign_bit_Some dest src from) as (v & Hv & ->); [lia..|]. cbn.
    rewrite IH by (rewrite ?length_insert; lia).
    f_equal.
    rewrite (take_S_r _ _ v) by (apply list_lookup_insert_eq; lia).
    rewrite take_insert_ge by lia.
    rewrite drop_insert_lt by lia.
    rewrite (drop_S src v from Hv). cbn [take].
    rewrite <- app_assoc. cbn. do 3 f_equal. f_equal. lia.
Qed.

(** ** The crossover operators *)

Section CrossOverFacts.
Context `{RandomEngine}.

Lemma split_hi_of_length (N : nat) :
  (1 <= N)%nat -> Z.of_nat N < size_t_modulus ->
  (Z.of_nat N - 1) mod size_t_modulus = Z.of_nat N - 1.
Proof. intros H1 H2. apply Z.mod_small. lia. Qed.

(** C6. Split crossover on two parents of the length [N >= 1] the operator
    was constructed for: the call returns a child of length [N]; with [p]
    the drawn position and [c] the drawn coin, [p] lies in [0, N-1] and the
    child is the prefix [0,p) of one parent followed by the suffix [p,N) of
    the other, parent [a] giving the prefix exactly when [c = 0]. *)
Theorem split_crossover_reconstruction
    (self : RandomSplitCrossOver) (a b : Chromosome) (N : nat) :
  (1 <= N)%nat -> Z.of_nat N < size_t_modulus ->
  split_int_hi self = (Z.of_nat N - 1) mod size_t_modulus ->
  length a = N -> length b = N ->
  let draw1 := uniform_int 0 (split_int_hi self) (split_rng self) in
  let p := fst draw1 in
  let c := fst (uniform_int 0 1 (snd draw1)) in
  exists child self',
    RandomSplitCrossOver_call self a b = Some (child, self') /\
    0 <= p <= Z.of_nat N - 1 /\
    child = (if c =? 0
             then take (Z.to_nat p) a ++ drop (Z.to_nat p) b
             else take (Z.to_nat p) b ++ drop (Z.to_nat p) a) /\
    length child = N.
Proof.
  intros HN Hmax Hhi Ha Hb draw1 p c.
  assert (Hp : 0 <= p <= Z.of_nat N - 1).
  { subst p draw1. rewrite Hhi, split_hi_of_length by assumption.
    apply uniform_int_range. lia. }
  unfold RandomSplitCrossOver_call. fold draw1.
  destruct draw1 as [p0 g1] eqn:Hd1. cbn [fst snd] in p, c. subst p.
  destruct (uniform_int 0 1 g1) as [c0 g2] eqn:Hd2. cbn [fst] in c. subst c.
  set (pos := Z.to_nat p0).
  assert (Hpos : (pos < N)%nat) by (subst pos; lia).
  assert (Hcopy : forall x y : list bool, length x = N -> length y = N ->
            (d ← copy_bits x 0 pos (bitset_new N); copy_bits y pos (N - pos) d)
            = Some (take pos x ++ drop pos y)).
  { intros x y Hx Hy.
    rewrite copy_bits_window
      by (unfold bitset_new; rewrite ?length_replicate; lia).
    cbn. rewrite copy_bits_window; cycle 1.
    { lia. }
    { rewrite !length_app, !length_take, !length_drop.
      unfold bitset_new. rewrite length_replicate. lia. }
    f_equal. rewrite ?take_0, ?drop_0. cbn [app].
    rewrite take_app_length' by (rewrite length_take; lia).
    rewrite (drop_ge (_ ++ _)); cycle 1.
    { rewrite !length_app, !length_take, !length_drop.
      unfold bitset_new. rewrite length_replicate. lia. }
    rewrite app_nil_r. f_equal. apply take_ge. rewrite length_drop. lia. }
  rewrite Ha, Hb.
  destruct (c0 =? 0).
  - rewrite (Hcopy a b Ha Hb). cbn. eexists _, _. split; [reflexivity|].
    split; [exact Hp|]. split; [reflexivity|].
    rewrite length_app, length_take, length_drop. lia.
  - rewrite (Hcopy b a Hb Ha). cbn. eexists _, _. split; [reflexivity|].
    split; [exact Hp|]. split; [reflexivity|].
    rewrite length_app, length_take, length_drop. lia.
Qed.

(** The mixing loop never changes the size of the destination. *)
Lemma mix_loop_length (a b : Chromosome) (n i : nat) (g g' : rng) (dest d : bitset) :
  mix_loop a b i n g dest = Some (d, g') -> length d = length dest.
Proof.
  revert i g dest. induction n as [|n IH]; intros i g dest; cbn [mix_loop].
  - by intros [= <- _].
  - destruct (uniform_int 0 1 g) as [c g1].
    destruct (if c =? 0 then assign_bit dest i a else assign_bit dest i b)
      as [d1|] eqn:H1; cbn; [|discriminate].
    intros H2. rewrite (IH _ _ _ H2).
    destruct (c =? 0); eapply assign_bit_length, H1.
Qed.

(** In range, the mixing loop succeeds; it leaves the bits outside its
    window alone and fills each bit inside from one of the parents. *)
Lemma mix_loop_window (a b : Chromosome) (n i : nat) (g : rng) (dest : bitset) :
  (i + n <= length a)%nat -> (i + n <= length b)%nat -> (i + n <= length dest)%nat ->
  exists d g', mix_loop a b i n g dest = Some (d, g') /\
    length d = length dest /\
    (forall j, (j < i)%nat -> d !! j = dest !! j) /\
    (forall j, (i <= j < i + n)%nat -> d !! j = a !! j \/ d !! j = b !! j).
Proof.
  revert i g dest. induction n as [|n IH]; intros i g dest Ha Hb Hd; cbn [mix_loop].
  - exists dest, g. repeat split; try done. intros j Hj. lia.
  - destruct (uniform_int 0 1 g) as [c g1].
    destruct (assign_bit_Some dest a i) as (va & Hva & Ea); [lia..|].
    destruct (assign_bit_Some dest b i) as (vb & Hvb & Eb); [lia..|].
    set (v := if c =? 0 then va else vb).
    assert (E : (if c =? 0 then assign_bit dest i a else assign_bit dest i b)
                = Some (<[i:=v]> dest)) by (subst v; destruct (c =? 0); assumption).
    rewrite E. cbn.
    destruct (IH (S i) g1 (<[i:=v]> dest)) as (d & g' & Hrun & Hlen & Hlow & Hwin);
      [rewrite ?length_insert; lia..|].
    exists d, g'. split; [exact Hrun|].
    split; [by rewrite Hlen, length_insert|].
    split.
    + intros j Hj. rewrite Hlow by lia. apply list_lookup_insert_ne. lia.
    + intros j Hj. destruct (decide (j = i)) as [->|Hne].
      * rewrite Hlow by lia. rewrite list_lookup_insert_eq by lia.
        subst v. destruct (c =? 0); [left | right]; congruence.
      * apply Hwin. lia.
Qed.

(** C7. Mix crossover on two parents of common length [N]: the call
    returns a child of length [N], and at every position [i < N] the
    child's bit is [a]'s bit or [b]'s bit at that position. *)
Theorem mix_crossover_membership
    (self : RandomMixCrossOver) (a b : Chromosome) (N : nat) :
  length a = N -> length b = N ->
  exists child self',
    RandomMixCrossOver_call self a b = Some (child, self') /\
    length child = N /\
    forall i, (i < N)%nat -> child !! i = a !! i \/ child !! i = b !! i.
Proof.
  intros Ha Hb. unfold RandomMixCrossOver_call.
  destruct (mix_loop_window a b (length a) 0 (mix_rng self) (bitset_new (length a)))
    as (d & g' & Hrun & Hlen & _ & Hwin);
    [unfold bitset_new; rewrite ?length_replicate; lia..|].
  rewrite Hrun. cbn. eexists _, _. split; [reflexivity|].
  split.
  - rewrite Hlen. unfold bitset_new. by rewrite length_replicate.
  - intros i Hi. apply Hwin. lia.
Qed.

Lemma copy_bits_Some (src : bitset) (n from : nat) (dest : bitset) :
  (from + n <= length src)%nat -> (from + n <= length dest)%nat ->
  exists d, copy_bits src from n dest = Some d /\ length d = length dest.
Proof.
  intros Hs Hd. eexists. split; [by apply copy_bits_window|].
  eapply copy_bits_length. by apply copy_bits_window.
Qed.

Lemma split_child_length (self self' : RandomSplitCrossOver) (a b child : Chromosome) :
  RandomSplitCrossOver_call self a b = Some (child, self') ->
  length child = length a.
Proof.
  unfold RandomSplitCrossOver_call.
  destruct (uniform_int 0 (split_int_hi self) (split_rng self)) as [p g1].
  destruct (uniform_int 0 1 g1) as [c g2].
  assert (Hnew : length (bitset_new (length a)) = length a)
    by (unfold bitset_new; apply length_replicate).
  destruct (c =? 0).
  - destruct (copy_bits a 0 (Z.to_nat p) (bitset_new (length a)))
      as [d|] eqn:H1; cbn; [|discriminate].
    destruct (copy_bits b (Z.to_nat p) (length b - Z.to_nat p) d)
      as [d'|] eqn:H2; cbn; [|discriminate].
    intros [= <- _].
    by rewrite (copy_bits_length _ _ _ _ _ H2), (copy_bits_length _ _ _ _ _ H1).
  - destruct (copy_bits b 0 (Z.to_nat p) (bitset_new (length a)))
      as [d|] eqn:H1; cbn; [|discriminate].
    destruct (copy_bits a (Z.to_nat p) (length a - Z.to_nat p) d)
      as [d'|] eqn:H2; cbn; [|discriminate].
    intros [= <- _].
    by rewrite (copy_bits_length _ _ _ _ _ H2), (copy_bits_length _ _ _ _ _ H1).
Qed.

Lemma mix_child_length (self self' : RandomMixCrossOver) (a b child : Chromosome) :
  RandomMixCrossOver_call self a b = Some (child, self') ->
  length child = length a.
Proof.
  unfold RandomMixCrossOver_call.
  destruct (mix_loop a b 0 (length a) (mix_rng self) (bitset_new (length a)))
    as [[d g']|] eqn:H1; cbn; [|discriminate].
  intros [= <- _]. rewrite (mix_loop_length _ _ _ _ _ _ _ _ H1).
  unfold bitset_new. apply length_replicate.
Qed.

(** The split crossover returns whenever its split range lies within a
    second parent that is not longer than the first. *)
Lemma split_returns (self : RandomSplitCrossOver) (a b : Chromosome) :
  0 <= split_int_hi self < Z.of_nat (length b) -> (length b <= length a)%nat ->
  exists child self', RandomSplitCrossOver_call self a b = Some (child, self').
Proof.
  intros Hhi Hlen.
  pose proof (uniform_int_range 0 (split_int_hi self) (split_rng self)
                ltac:(lia)) as Hp.
  unfold RandomSplitCrossOver_call.
  destruct (uniform_int 0 (split_int_hi self) (split_rng self)) as [p g1].
  cbn [fst] in Hp.
  destruct (uniform_int 0 1 g1) as [c g2].
  assert (Hnew : length (bitset_new (length a)) = length a)
    by (unfold bitset_new; apply length_replicate).
  destruct (c =? 0).
  - destruct (copy_bits_Some a (Z.to_nat p) 0 (bitset_new (length a)))
      as (d & -> & Hd); [lia..|]. cbn.
    destruct (copy_bits_Some b (length b - Z.to_nat p) (Z.to_nat p) d)
      as (d' & -> & _); [lia..|]. cbn. eauto.
  - destruct (copy_bits_Some b (Z.to_nat p) 0 (bitset_new (length a)))
      as (d & -> & Hd); [lia..|]. cbn.
    destruct (copy_bits_Some a (length a - Z.to_nat p) (Z.to_nat p) d)
      as (d' & -> & _); [lia..|]. cbn. eauto.
Qed.

(** The mix crossover returns whenever the second parent is at least as
    long as the first. *)
Lemma mix_returns (self : RandomMixCrossOver) (a b : Chromosome) :
  (length a <= length b)%nat ->
  exists child self', RandomMixCrossOver_call self a b = Some (child, self').
Proof.
  intros Hlen. unfold RandomMixCrossOver_call.
  destruct (mix_loop_window a b (length a) 0 (mix_rng self) (bitset_new (length a)))
    as (d & g' & -> & _);
    [unfold bitset_new; rewrite ?length_replicate; lia..|].
  cbn. eauto.
Qed.

(** C9. Whatever the length of the second parent, a child returned by the
    split crossover or by the mix crossover has the length of the first
    parent [a]: the destination is created with [a.size()] bits and only
    overwritten in place.  Parents of different lengths are not rejected:
    the split crossover returns such a child for every [b] not longer than
    [a] that contains the split range, the mix crossover for every [b] at
    least as long as [a]. *)
Theorem crossover_child_length_from_first_parent :
  (forall (self self' : RandomSplitCrossOver) (a b child : Chromosome),
      RandomSplitCrossOver_call self a b = Some (child, self') ->
      length child = length a) /\
  (forall (self self' : RandomMixCrossOver) (a b child : Chromosome),
      RandomMixCrossOver_call self a b = Some (child, self') ->
      length child = length a) /\
  (forall (self : RandomSplitCrossOver) (a b : Chromosome),
      0 <= split_int_hi self < Z.of_nat (length b) ->
      (length b <= length a)%nat ->
      exists child self',
        RandomSplitCrossOver_call self a b = Some (child, self') /\
        length child = length a) /\
  (forall (self : RandomMixCrossOver) (a b : Chromosome),
      (length a <= length b)%nat ->
      exists child self',
        RandomMixCrossOver_call self a b = Some (child, self') /\
        length child = length a).
Proof.
  split; [exact split_child_length|]. split; [exact mix_child_length|]. split.
  - intros self a b Hhi Hlen.
    destruct (split_returns self a b Hhi Hlen) as (child & self' & Hrun).
    exists child, self'. split; [exact Hrun|]. eapply split_child_length, Hrun.
  - intros self a b Hlen.
    destruct (mix_returns self a b Hlen) as (child & self' & Hrun).
    exists child, self'. split; [exact Hrun|]. eapply mix_child_length, Hrun.
Qed.

End CrossOverFacts.

Section ProbWrapperFacts.
Context `{RandomEngine} {F : Type} `{CrossOverFunctor F}.

Lemma Qltb_below (u p : Q) : (u < 1)%Q -> (p == 1)%Q -> Qltb u p = true.
Proof.
  intros Hu Hp. unfold Qltb.
  assert (Hlt : (u < p)%Q) by (rewrite Hp; exact Hu).
  by rewrite (proj1 (Qlt_alt u p) Hlt).
Qed.

Lemma Qltb_not_below (u p : Q) : (0 <= u)%Q -> (p == 0)%Q -> Qltb u p = false.
Proof.
  intros Hu Hp. unfold Qltb.
  assert (Hle : (p <= u)%Q) by (rewrite Hp; exact Hu).
  destruct (u ?= p)%Q eqn:Hc; try reflexivity.
  exfalso. exact (Qlt_not_le _ _ (proj2 (Qlt_alt u p) Hc) Hle).
Qed.

(** C5. The probability-gated wrapper.  With [prob = 1] a call is the call
    of the wrapped operator on the same parents from the wrapped operator's
    current state: same child, same successor state, and only the gate's
    one real draw taken from the wrapper's own engine.  With [prob = 0] a
    call returns parent [a] or parent [b] as it is, and the wrapped
    operator is left untouched. *)
Theorem prob_gated_crossover_bounds
    (self : CrossOverOnProbWrapper F) (a b : Chromosome) :
  ((wrap_prob self == 1)%Q ->
     CrossOverOnProbWrapper_call self a b =
       match cross_over (wrap_crossover self) a b with
       | Some (child, f') =>
           Some (child, {| wrap_rng := snd (uniform_real 0 1 (wrap_rng self));
                           wrap_prob := wrap_prob self;
                           wrap_crossover := f' |})
       | None => None
       end) /\
  ((wrap_prob self == 0)%Q ->
     exists self',
       (CrossOverOnProbWrapper_call self a b = Some (a, self') \/
        CrossOverOnProbWrapper_call self a b = Some (b, self')) /\
       wrap_crossover self' = wrap_crossover self).
Proof.
  pose proof (uniform_real_range 0 1 (wrap_rng self) ltac:(reflexivity)) as [Hlo Hhi].
  unfold CrossOverOnProbWrapper_call.
  destruct (uniform_real 0 1 (wrap_rng self)) as [u g1]. cbn [fst snd] in *.
  split; intros Hp.
  - rewrite (Qltb_below u _ Hhi Hp).
    destruct (cross_over (wrap_crossover self) a b) as [[child f']|]; reflexivity.
  - rewrite (Qltb_not_below u _ Hlo Hp).
    destruct (uniform_int 0 1 g1) as [c g2].
    exists {| wrap_rng := g2; wrap_prob := wrap_prob self;
              wrap_crossover := wrap_crossover self |}.
    split; [|reflexivity].
    destruct (c =? 0); [left | right]; reflexivity.
Qed.

End ProbWrapperFacts.

(** *** The operators on concrete parents *)

Lemma split_crossover_reconstruction_witness :
  let self := mk_RandomSplitCrossOver (H:=counter_engine) 4 6 in
  let a := [true; true; true; true] in
  let b := [false; false; false; false] in
  exists child self',
    RandomSplitCrossOver_call (H:=counter_engine) self a b = Some (child, self') /\
    0 <= 2 <= Z.of_nat 4 - 1 /\
    child = [false; false; true; true] /\
    length child = 4%nat.
Proof.
  intros self a b.
  exact (split_crossover_reconstruction (H:=counter_engine) self a b 4
           ltac:(lia) ltac:(reflexivity) ltac:(reflexivity)
           ltac:(reflexivity) ltac:(reflexivity)).
Defined.

Lemma mix_crossover_membership_witness :
  let self := mk_RandomMixCrossOver (H:=counter_engine) 1 in
  let a := [true; true; false] in
  let b := [false; true; true] in
  exists child self',
    RandomMixCrossOver_call (H:=counter_engine) self a b = Some (child, self') /\
    length child = 3%nat /\
    forall i, (i < 3)%nat -> child !! i = a !! i \/ child !! i = b !! i.
Proof.
  intros self a b.
  exact (mix_crossover_membership (H:=counter_engine) self a b 3
           ltac:(reflexivity) ltac:(reflexivity)).
Defined.

Lemma crossover_child_length_from_first_parent_witness :
  (RandomSplitCrossOver_call (H:=counter_engine)
     (mk_RandomSplitCrossOver (H:=counter_engine) 3 0) [true; true; true] [false]
     = Some ([true; true; true], (@Build_RandomSplitCrossOver counter_engine 2 2)) /\
   length [true; true; true] = length [true; true; true]) /\
  (RandomMixCrossOver_call (H:=counter_engine)
     (mk_RandomMixCrossOver (H:=counter_engine) 1) [true; true] [false]
     = Some ([false; true], (@Build_RandomMixCrossOver counter_engine 3)) /\
   length [false; true] = length [true; true]) /\
  (exists child self',
     RandomSplitCrossOver_call (H:=counter_engine)
       (mk_RandomSplitCrossOver (H:=counter_engine) 2 1)
       [true; true; true; true] [false; false] = Some (child, self') /\
     length child = 4%nat) /\
  (exists child self',
     RandomMixCrossOver_call (H:=counter_engine)
       (mk_RandomMixCrossOver (H:=counter_engine) 0)
       [true; true] [false; false; false] = Some (child, self') /\
     length child = 2%nat).
Proof.
  destruct (crossover_child_length_from_first_parent (H:=counter_engine))
    as (Hsplit & Hmix & Hsplit_returns & Hmix_returns).
  split; [split; [reflexivity|]|split; [split; [reflexivity|]|split]].
  - apply (Hsplit (mk_RandomSplitCrossOver (H:=counter_engine) 3 0)
             (@Build_RandomSplitCrossOver counter_engine 2 2) _ [false]).
    reflexivity.
  - apply (Hmix (mk_RandomMixCrossOver (H:=counter_engine) 1)
             (@Build_RandomMixCrossOver counter_engine 3) _ [false]).
    reflexivity.
  - apply (Hsplit_returns (mk_RandomSplitCrossOver (H:=counter_engine) 2 1)
             [true; true; true; true] [false; false]).
    + vm_compute. split; [discriminate | reflexivity].
    + cbn. lia.
  - apply (Hmix_returns (mk_RandomMixCrossOver (H:=counter_engine) 0)
             [true; true] [false; false; false]).
    cbn. lia.
Defined.

Lemma prob_gated_crossover_bounds_witness :
  let always := make_cross_over_on_prob (H:=counter_engine) 5 1
                  (mk_RandomMixCrossOver (H:=counter_engine) 1) in
  let never := make_cross_over_on_prob (H:=counter_engine) 5 0
                 (mk_RandomMixCrossOver (H:=counter_engine) 1) in
  let a := [true; true] in
  let b := [false; false] in
  ((wrap_prob always == 1)%Q /\
   CrossOverOnProbWrapper_call (H:=counter_engine) always a b
     = Some ([false; true],
             @Build_CrossOverOnProbWrapper counter_engine _ 6 1
               (@Build_RandomMixCrossOver counter_engine 3))) /\
  ((wrap_prob never == 0)%Q /\
   exists self',
     (CrossOverOnProbWrapper_call (H:=counter_engine) never a b = Some (a, self') \/
      CrossOverOnProbWrapper_call (H:=counter_engine) never a b = Some (b, self')) /\
     wrap_crossover self' = wrap_crossover never).
Proof.
  intros always never a b. split.
  - split; [reflexivity|].
    exact (proj1 (prob_gated_crossover_bounds (H:=counter_engine) always a b)
             ltac:(reflexivity)).
  - split; [reflexivity|].
    exact (proj2 (prob_gated_crossover_bounds (H:=counter_engine) never a b)
             ltac:(reflexivity)).
Defined.

(** ** The solver *)

Lemma sample_selection_exact : selection_exact sample_select.
Proof.
  intros s hs count Hc. unfold sample_select. cbn [fst].
  rewrite length_replicate. lia.
Qed.

Section SolverFacts.
Context {T : Type} (ltb : T -> T -> bool).
Context {SI SS SC SM : Type}.
Variable init_func : SI -> Chromosome * SI.
Variable select_func : SS -> list (@hypothesis T) -> Z -> list couple * SS.
Variable cross_over_func : SC -> Chromosome -> Chromosome -> Chromosome * SC.
Variable mutate_func : SM -> Chromosome -> Chromosome * SM.
Variable rank_func : Chromosome -> T.

Local Abbreviation W := (@World SI SS SC SM).
Local Abbreviation push := (@Population_push T SI SS SC SM rank_func).
Local Abbreviation top := (@Population_top T ltb SI SS SC SM).
Local Abbreviation init_n := (@init_loop T SI SS SC SM init_func rank_func).
Local Abbreviation breed := (@for_each_couple T SI SS SC SM cross_over_func mutate_func rank_func).
Local Abbreviation step := (generation ltb select_func cross_over_func mutate_func rank_func).
Local Abbreviation steps := (generations ltb select_func cross_over_func mutate_func rank_func).
Local Abbreviation seed := (@seeding T ltb SI SS SC SM init_func rank_func).
Local Abbreviation run := (solve ltb init_func select_func cross_over_func mutate_func rank_func).

(** *** How the pieces run *)

Lemma bind_Ok {A B} (m : M A) (k : A -> M B) (w w1 : W) (x : A) :
  m w = (Ok x, w1) -> bind m k w = k x w1.
Proof. intros E. unfold bind. by rewrite E. Qed.

Lemma bind_Undefined {A B} (m : M A) (k : A -> M B) (w w1 : W) :
  m w = (Undefined, w1) -> bind m k w = (Undefined, w1).
Proof. intros E. unfold bind. by rewrite E. Qed.

Lemma push_run (P : Population) (c : Chromosome) (w : W) :
  push P c w = (Ok (P ++ [(c, rank_func c)]), record (CallRank c) w).
Proof. reflexivity. Qed.

Lemma top_run (P : Population) (h : hypothesis) (w : W) :
  top_member ltb P = Some h -> top P w = (Ok h, w).
Proof. intros E. unfold Population_top. by rewrite E. Qed.

Lemma top_member_nonempty (P : Population (T:=T)) :
  (0 < length P)%nat -> exists h, top_member ltb P = Some h.
Proof. destruct P as [|h l]; cbn; [lia | eauto]. Qed.

(** The initial fill: [n] new members, only initializer and rank calls, the
    other functors untouched. *)
Lemma init_loop_run (n : nat) (P : Population) (w : W) :
  exists P' w',
    init_n n P w = (Ok P', w') /\
    length P' = (length P + n)%nat /\
    select_st w' = select_st w /\ cross_st w' = cross_st w /\
    mutate_st w' = mutate_st w /\
    exists evs, calls w' = calls w ++ evs /\ forallb seeding_event evs = true.
Proof.
  revert P w. induction n as [|n IH]; intros P w.
  - exists P, w. cbn. repeat split; try lia.
    exists []. by rewrite app_nil_r.
  - cbn [init_loop]. unfold bind at 1, call_init.
    destruct (init_func (init_st w)) as [c s] eqn:Hc.
    unfold bind at 1. rewrite push_run.
    destruct (IH (P ++ [(c, rank_func c)])
                 (record (CallRank c) (record CallInitializer
                    {| init_st := s; select_st := select_st w;
                       cross_st := cross_st w; mutate_st := mutate_st w;
                       calls := calls w |})))
      as (P' & w' & Hrun & Hlen & Hs & Hx & Hm & evs & Hev & Hall).
    exists P', w'. split; [exact Hrun|].
    split; [rewrite Hlen, length_app; cbn; lia|].
    repeat (split; [assumption|]).
    exists (CallInitializer :: CallRank c :: evs).
    split; [|exact Hall].
    rewrite Hev. cbn. by rewrite <- !app_assoc.
Qed.

(** C3. With [num_iterations = 0] and [population_size = n >= 1], [solve]
    returns the genotype of the top member of the population that [init]
    has just filled with [n] members; the calls made are initializer and
    rank calls only, and the selection, crossover and mutation functors are
    in the state they started in. *)
Theorem zero_iterations_returns_seeding_top (n : Z) (w : W) :
  1 <= n ->
  exists P h w',
    Population_init init_func rank_func [] n w = (Ok P, w') /\
    length P = Z.to_nat n /\
    top_member ltb P = Some h /\
    run 0 n w = (Ok (fst h), w') /\
    (exists evs, calls w' = calls w ++ evs /\ forallb seeding_event evs = true) /\
    select_st w' = select_st w /\ cross_st w' = cross_st w /\
    mutate_st w' = mutate_st w.
Proof.
  intros Hn.
  destruct (init_loop_run (Z.to_nat n) [] w)
    as (P & w' & Hrun & Hlen & Hs & Hx & Hm & Hev).
  destruct (top_member_nonempty P) as [h Hh]; [rewrite Hlen; cbn; lia|].
  exists P, h, w'. split; [exact Hrun|]. split; [exact Hlen|].
  split; [exact Hh|]. split; [|by repeat split].
  unfold solve, seeding. unfold Population_init in *.
  rewrite (bind_Ok _ _ w w' {| current := P; next := []; best := h |}).
  - reflexivity.
  - rewrite (bind_Ok _ _ w w' P Hrun).
    rewrite (bind_Ok _ _ w' w' h (top_run P h w' Hh)). reflexivity.
Qed.

(** The breeding loop: one new member per couple; the initializer and the
    selection functor are not touched and the log only grows. *)
Lemma for_each_couple_run (couples : list couple) (nxt : Population) (w : W) :
  exists nxt' w',
    breed couples nxt w = (Ok nxt', w') /\
    length nxt' = (length nxt + length couples)%nat /\
    init_st w' = init_st w /\ select_st w' = select_st w /\
    exists evs, calls w' = calls w ++ evs.
Proof.
  revert nxt w. induction couples as [|cpl rest IH]; intros nxt w.
  - exists nxt, w. cbn. repeat split; try lia. exists []. by rewrite app_nil_r.
  - cbn [for_each_couple]. unfold bind at 1, call_cross_over.
    destruct (cross_over_func (cross_st w) cpl.1 cpl.2) as [child sc].
    unfold bind at 1, call_mutate. cbn [cross_st mutate_st record].
    destruct (mutate_func (mutate_st w) child) as [mutant sm].
    unfold bind at 1. rewrite push_run.
    match goal with |- context [breed rest ?P ?w0] =>
      destruct (IH P w0) as (nxt' & w' & Hrun & Hlen & Hi & Hs & evs & Hev)
    end.
    exists nxt', w'. split; [exact Hrun|].
    split; [rewrite Hlen, length_app; cbn; lia|].
    split; [exact Hi|]. split; [exact Hs|].
    eexists. rewrite Hev. cbn. rewrite <- !app_assoc. reflexivity.
Qed.

(** One iteration, laid out: the selection request, the breeding loop, and
    then everything hinges on [top] of the population swapped in. *)
Lemma generation_unfold (n : Z) (l : Locals) (w : W) :
  exists filled w1 w2,
    let couples := fst (select_func (select_st w) (current l) (couples_requested n)) in
    calls w1 = calls w ++ [CallSelection (couples_requested n)] /\
    breed couples (next l) w1 = (Ok filled, w2) /\
    length filled = (length (next l) + length couples)%nat /\
    (exists evs, calls w2 = calls w1 ++ evs) /\
    step n l w =
      match top_member ltb filled with
      | None => (Undefined, w2)
      | Some t =>
          let best1 := if ltb (snd (best l)) (snd t) then t else best l in
          (Ok {| current := filled ++ [(fst best1, rank_func (fst best1))];
                 next := [];
                 best := best1 |},
           record (CallRank (fst best1)) w2)
      end.
Proof.
  unfold generation, Population_select.
  unfold bind at 1, call_select.
  destruct (select_func (select_st w) (current l) (couples_requested n))
    as [couples ss]. cbn [fst].
  set (w0 := record (CallSelection (couples_requested n))
               {| init_st := init_st w; select_st := ss; cross_st := cross_st w;
                  mutate_st := mutate_st w; calls := calls w |}).
  destruct (for_each_couple_run couples (next l) w0)
    as (filled & w2 & Hrun & Hlen & _ & _ & Hev).
  exists filled, w0, w2.
  split; [reflexivity|]. split; [exact Hrun|]. split; [exact Hlen|].
  split; [exact Hev|].
  unfold bind at 1. rewrite Hrun.
  unfold Population_top. destruct (top_member ltb filled) as [t|].
  - unfold bind at 1, ret. unfold bind at 1. rewrite push_run. reflexivity.
  - reflexivity.
Qed.

(** What a completed iteration has done to [best] and [current]. *)
Lemma generation_Ok (n : Z) (l l' : Locals) (w w' : W) :
  step n l w = (Ok l', w') ->
  exists children t,
    top_member ltb children = Some t /\
    best l' = (if ltb (snd (best l)) (snd t) then t else best l) /\
    current l' = children ++ [(fst (best l'), rank_func (fst (best l')))] /\
    next l' = [].
Proof.
  destruct (generation_unfold n l w) as (filled & w1 & w2 & _ & _ & _ & _ & ->).
  destruct (top_member ltb filled) as [t|] eqn:Ht; [|discriminate].
  intros [= <- _]. exists filled, t. by repeat split.
Qed.

(** With at least two members asked for, an iteration that starts with an
    empty [next] completes and leaves [population_size] members in
    [current]: the [population_size - 1] children and the pushed [best]. *)
Lemma generation_size_invariant (n : Z) (l : Locals) (w : W) :
  selection_exact select_func ->
  2 <= n < size_t_modulus -> next l = [] ->
  exists l' w' children,
    step n l w = (Ok l', w') /\
    Z.of_nat (length children) = n - 1 /\
    current l' = children ++ [(fst (best l'), rank_func (fst (best l')))] /\
    Z.of_nat (length (current l')) = n /\
    next l' = [].
Proof.
  intros Hsel Hn Hnext.
  destruct (generation_unfold n l w)
    as (filled & w1 & w2 & _ & _ & Hlen & _ & Hstep).
  assert (Hreq : couples_requested n = n - 1)
    by (unfold couples_requested; apply Z.mod_small; lia).
  rewrite Hnext, Hreq in Hlen. cbn in Hlen.
  pose proof (Hsel (select_st w) (current l) (n - 1) ltac:(lia)) as Hcount.
  destruct (top_member_nonempty filled) as [t Ht]; [lia|].
  rewrite Ht in Hstep. cbn zeta in Hstep.
  rewrite <- Hlen in Hcount.
  eexists _, _, filled. split; [exact Hstep|]. cbn [current next best].
  split; [exact Hcount|]. split; [reflexivity|]. split; [|reflexivity].
  rewrite length_app, Nat2Z.inj_add.
  change (Z.of_nat (length filled)) with
    (Z.of_nat (length (A:=hypothesis) filled)).
  rewrite Hcount. cbn. lia.
Qed.

(** With one member asked for, selection is asked for no couple, nothing
    is bred, and [top] is then taken of the empty population swapped in. *)
Lemma generation_single_member (l : Locals) (w : W) :
  selection_exact select_func -> next l = [] ->
  exists w',
    step 1 l w = (Undefined, w') /\
    calls w' = calls w ++ [CallSelection 0] /\
    cross_st w' = cross_st w /\ mutate_st w' = mutate_st w.
Proof.
  intros Hsel Hnext.
  pose proof (Hsel (select_st w) (current l) 0 ltac:(lia)) as Hcount.
  unfold generation, Population_select. unfold bind at 1, call_select.
  change (couples_requested 1) with 0.
  destruct (select_func (select_st w) (current l) 0) as [[|cpl rest] ss];
    [|cbn in Hcount; lia].
  rewrite Hnext. cbn [for_each_couple]. unfold bind at 1, ret at 1.
  unfold bind at 1. cbn [Population_top top_member undefined].
  eexists. split; [reflexivity|]. by repeat split.
Qed.

(** The seeding phase of a single-member run. *)
Lemma seeding_single_member (w : W) :
  exists l w',
    seed 1 w = (Ok l, w') /\ next l = [] /\
    fst (best l) = fst (init_func (init_st w)) /\
    calls w' = calls w ++
      [CallInitializer; CallRank (fst (init_func (init_st w)))] /\
    cross_st w' = cross_st w /\ mutate_st w' = mutate_st w.
Proof.
  unfold seeding, Population_init. change (Z.to_nat 1) with 1%nat.
  cbn [init_loop]. unfold bind at 1. unfold bind at 1, call_init.
  destruct (init_func (init_st w)) as [c s]. cbn [fst].
  unfold bind at 1. rewrite push_run. unfold ret at 1.
  unfold bind at 1. cbn [app Population_top top_member first_max ret].
  eexists _, _. split; [reflexivity|]. split; [reflexivity|].
  split; [reflexivity|]. split; [|by split].
  cbn. by rewrite <- app_assoc.
Qed.

(** A run with one member and at least one iteration reaches [top] of an
    empty population in its first iteration. *)
Lemma solve_single_member (k : Z) (w : W) :
  selection_exact select_func -> 1 <= k ->
  exists w',
    run k 1 w = (Undefined, w') /\
    calls w' = calls w ++
      [CallInitializer; CallRank (fst (init_func (init_st w))); CallSelection 0] /\
    cross_st w' = cross_st w /\ mutate_st w' = mutate_st w.
Proof.
  intros Hsel Hk.
  destruct (seeding_single_member w)
    as (l & w1 & Hseed & Hnext & _ & Hcalls1 & Hx1 & Hm1).
  destruct (generation_single_member l w1 Hsel Hnext)
    as (w2 & Hstep & Hcalls2 & Hx2 & Hm2).
  exists w2. split; [|split; [|split; congruence]].
  - unfold solve. rewrite (bind_Ok _ _ _ _ _ Hseed).
    apply bind_Undefined.
    destruct (Z.to_nat k) as [|k'] eqn:Ek; [lia|].
    cbn [generations]. by apply bind_Undefined.
  - rewrite Hcalls2, Hcalls1, <- app_assoc. reflexivity.
Qed.

(** *** Elitism *)

Lemma rank_le_refl (x : T) : rank_le ltb x x.
Proof. by left. Qed.

Lemma rank_le_trans (x y z : T) :
  (forall a b c, ltb a b = true -> ltb b c = true -> ltb a c = true) ->
  rank_le ltb x y -> rank_le ltb y z -> rank_le ltb x z.
Proof.
  intros Htrans [->|Hxy] [->|Hyz]; [by left | by right | by right |].
  right. eapply Htrans; eassumption.
Qed.

Lemma generation_rank_le (n : Z) (l l' : Locals) (w w' : W) :
  step n l w = (Ok l', w') -> rank_le ltb (snd (best l)) (snd (best l')).
Proof.
  intros (children & t & _ & -> & _)%generation_Ok.
  destruct (ltb (snd (best l)) (snd t)) eqn:E; [by right | by left].
Qed.

Lemma generations_rank_le (n : Z) (k : nat) (l l' : Locals) (w w' : W) :
  (forall a b c, ltb a b = true -> ltb b c = true -> ltb a c = true) ->
  steps n k l w = (Ok l', w') -> rank_le ltb (snd (best l)) (snd (best l')).
Proof.
  intros Htrans. revert l w. induction k as [|k IH]; intros l w; cbn [generations].
  - intros [= <- _]. apply rank_le_refl.
  - unfold bind at 1.
    destruct (step n l w) as [[l1|] w1] eqn:E1; [|discriminate].
    intros E2. eapply rank_le_trans; [exact Htrans | | exact (IH _ _ E2)].
    eapply generation_rank_le, E1.
Qed.

(** C1. The best-so-far hypothesis of [solve], for an [operator<] that is
    irreflexive and transitive.  In every iteration that completes, [best]
    becomes the top [t] of the new generation exactly when
    [best.rank < t.rank] and is kept otherwise, so a tie keeps the recorded
    [best] and the rank of [best] does not decrease; along any number of
    iterations, and from seeding to the returned genotype of a completed
    run, the rank of [best] does not decrease. *)
Theorem best_replaced_only_on_strict_improvement :
  (forall x, ltb x x = false) ->
  (forall a b c, ltb a b = true -> ltb b c = true -> ltb a c = true) ->
  (forall n l (w : W) l' w',
      step n l w = (Ok l', w') ->
      exists children t,
        top_member ltb children = Some t /\
        current l' = children ++ [(fst (best l'), rank_func (fst (best l')))] /\
        best l' = (if ltb (snd (best l)) (snd t) then t else best l) /\
        (snd t = snd (best l) -> best l' = best l) /\
        rank_le ltb (snd (best l)) (snd (best l'))) /\
  (forall n k l (w : W) l' w',
      steps n k l w = (Ok l', w') ->
      rank_le ltb (snd (best l)) (snd (best l'))) /\
  (forall k n w c w',
      run k n w = (Ok c, w') ->
      exists l0 w0 l',
        seed n w = (Ok l0, w0) /\
        steps n (Z.to_nat k) l0 w0 = (Ok l', w') /\
        c = fst (best l') /\
        rank_le ltb (snd (best l0)) (snd (best l'))).
Proof.
  intros Hirr Htrans. split; [|split].
  - intros n l w l' w' Hstep.
    pose proof (generation_rank_le _ _ _ _ _ Hstep) as Hle.
    destruct (generation_Ok _ _ _ _ _ Hstep) as (children & t & Ht & Hb & Hc & _).
    exists children, t. repeat split; try assumption.
    intros Htie. rewrite Hb, Htie, Hirr. reflexivity.
  - intros n k l w l' w'. apply generations_rank_le, Htrans.
  - intros k n w c w'. unfold solve. unfold bind at 1.
    destruct (seed n w) as [[l0|] w0] eqn:E0; [|discriminate].
    unfold bind at 1.
    destruct (steps n (Z.to_nat k) l0 w0) as [[l'|] w1] eqn:E1; [|discriminate].
    intros [= <- <-]. exists l0, w0, l'.
    split; [reflexivity|]. split; [exact E1|]. split; [reflexivity|].
    eapply generations_rank_le; [exact Htrans | exact E1].
Qed.

(** *** Degenerate sizes *)

(** C2. Runs with [population_size = 1], with a selection functor that
    honours its contract.  With no iteration the run returns the seeding
    top.  With at least one iteration, selection is asked for 0 couples
    and neither crossover nor mutation is called, but the run does not
    return: right after the selection call it takes [top] of the empty
    population that was swapped in. *)
Theorem single_member_run (w : W) :
  selection_exact select_func ->
  (exists w0,
     run 0 1 w = (Ok (fst (init_func (init_st w))), w0) /\
     calls w0 = calls w ++
       [CallInitializer; CallRank (fst (init_func (init_st w)))]) /\
  (forall k, 1 <= k ->
     exists w',
       run k 1 w = (Undefined, w') /\
       calls w' = calls w ++
         [CallInitializer; CallRank (fst (init_func (init_st w)));
          CallSelection 0] /\
       cross_st w' = cross_st w /\ mutate_st w' = mutate_st w).
Proof.
  intros Hsel. split.
  - destruct (seeding_single_member w)
      as (l & w1 & Hseed & _ & Hbest & Hcalls1 & _).
    exists w1. split; [|exact Hcalls1].
    unfold solve. rewrite (bind_Ok _ _ _ _ _ Hseed).
    change (Z.to_nat 0) with 0%nat. cbn [generations].
    unfold bind, ret. by rewrite Hbest.
  - intros k Hk. by apply solve_single_member.
Qed.

(** C8. The determinism scenario ([population_size = 1],
    [num_iterations = 5]) with a selection functor that honours its
    contract: two runs started from equal functor states agree, but what
    they agree on is undefined behaviour, reached in the first iteration;
    no best genotype is returned. *)
Theorem determinism_scenario_undefined (w1 w2 : W) :
  selection_exact select_func -> w1 = w2 ->
  run 5 1 w1 = run 5 1 w2 /\
  exists w', run 5 1 w1 = (Undefined, w').
Proof.
  intros Hsel ->. split; [reflexivity|].
  destruct (solve_single_member 5 w2 Hsel ltac:(lia)) as (w' & Hrun & _).
  by exists w'.
Qed.

(** C4. The size of [current] after the elitism push, with a selection
    functor that honours its contract and [next] empty on entry as in
    [solve].  For [2 <= population_size] the iteration completes with
    [population_size - 1] children followed by the pushed best, that is
    [population_size] members.  For [population_size = 1] the iteration
    never reaches the push: it ends in [top] of the empty population. *)
Theorem population_size_after_elitism (l : Locals) (w : W) :
  selection_exact select_func -> next l = [] ->
  (forall n, 2 <= n < size_t_modulus ->
     exists l' w' children,
       step n l w = (Ok l', w') /\
       Z.of_nat (length children) = n - 1 /\
       current l' = children ++ [(fst (best l'), rank_func (fst (best l')))] /\
       Z.of_nat (length (current l')) = n /\
       next l' = []) /\
  (exists w', step 1 l w = (Undefined, w') /\
              calls w' = calls w ++ [CallSelection 0]).
Proof.
  intros Hsel Hnext. split.
  - intros n Hn. by apply generation_size_invariant.
  - destruct (generation_single_member l w Hsel Hnext) as (w' & Hstep & Hcalls & _).
    by exists w'.
Qed.

(** C10. [population_size = 0].  The loop body computes the request as
    [population_size - 1] in [size_t], which is [2^64 - 1], and hands it to
    selection without a guard: every iteration entered with that size
    starts with this request.  A call of [solve] with that size does not
    get there: seeding takes [top] of the empty population, before any
    functor has been called. *)
Theorem zero_population_request_wraps :
  couples_requested 0 = 2 ^ 64 - 1 /\
  (forall l (w : W), exists evs,
      calls (snd (step 0 l w)) = calls w ++ CallSelection (2 ^ 64 - 1) :: evs) /\
  (forall k (w : W), run k 0 w = (Undefined, w)).
Proof.
  split; [reflexivity|]. split.
  - intros l w.
    destruct (generation_unfold 0 l w)
      as (filled & w1 & w2 & Hw1 & _ & _ & (evs & Hw2) & ->).
    change (couples_requested 0) with (2 ^ 64 - 1) in Hw1.
    destruct (top_member ltb filled) as [t|]; cbn [snd].
    + eexists. cbn [record calls]. rewrite Hw2, Hw1, <- !app_assoc. reflexivity.
    + eexists. rewrite Hw2, Hw1, <- !app_assoc. reflexivity.
  - intros k w. reflexivity.
Qed.

End SolverFacts.

(** *** The solver on the sample functors *)

Lemma Zltb_trans (a b c : Z) : (a <? b) = true -> (b <? c) = true -> (a <? c) = true.
Proof. rewrite !Z.ltb_lt. lia. Qed.

Lemma best_replaced_only_on_strict_improvement_witness :
  exists l0 w0 l1 w1,
    sample_seeding 3 (sample_world 0) = (Ok l0, w0) /\
    sample_generation 3 l0 w0 = (Ok l1, w1) /\
    best l0 = ([true; false; false], 1) /\
    best l1 = ([true; true; false], 2) /\
    rank_le Z.ltb (snd (best l0)) (snd (best l1)).
Proof.
  destruct (best_replaced_only_on_strict_improvement Z.ltb
              sample_init sample_select sample_cross_over sample_mutate
              sample_rank Z.ltb_irrefl Zltb_trans) as [Hstep _].
  let r0 := eval vm_compute in (sample_seeding 3 (sample_world 0)) in
  lazymatch r0 with
  | (Ok ?l0, ?w0) =>
      let r1 := eval vm_compute in (sample_generation 3 l0 w0) in
      lazymatch r1 with
      | (Ok ?l1, ?w1) =>
          exists l0, w0, l1, w1;
          do 4 (split; [reflexivity|]);
          destruct (Hstep 3 l0 w0 l1 w1 eq_refl) as (children & t & _ & _ & _ & _ & Hle);
          exact Hle
      end
  end.
Defined.

Lemma single_member_run_witness :
  selection_exact sample_select /\
  exists w',
    sample_solve 1 1 (sample_world 0) = (Undefined, w') /\
    calls w' = [CallInitializer; CallRank [false; false; false]; CallSelection 0].
Proof.
  split; [exact sample_selection_exact|].
  destruct (single_member_run Z.ltb sample_init sample_select
              sample_cross_over sample_mutate sample_rank
              (sample_world 0) sample_selection_exact) as [_ Hfail].
  destruct (Hfail 1 ltac:(lia)) as (w' & Hrun & Hcalls & _).
  exists w'. split; [exact Hrun | exact Hcalls].
Defined.

Lemma zero_iterations_returns_seeding_top_witness :
  1 <= 3 /\
  exists P h w',
    length P = 3%nat /\
    top_member Z.ltb P = Some h /\
    sample_solve 0 3 (sample_world 0) = (Ok (fst h), w').
Proof.
  split; [lia|].
  destruct (zero_iterations_returns_seeding_top Z.ltb sample_init sample_select
              sample_cross_over sample_mutate sample_rank 3 (sample_world 0)
              ltac:(lia))
    as (P & h & w' & _ & Hlen & Htop & Hrun & _).
  exists P, h, w'. split; [exact Hlen|]. split; [exact Htop | exact Hrun].
Defined.

Lemma population_size_after_elitism_witness :
  let l0 := {| current := [([true; false; false], 1); ([false; true; false], 1)];
               next := [];
               best := ([true; false; false], 1) |} in
  selection_exact sample_select /\ next l0 = [] /\ 2 <= 2 < size_t_modulus /\
  (exists l' w', sample_generation 2 l0 (sample_world 0) = (Ok l', w') /\
                 Z.of_nat (length (current l')) = 2) /\
  (exists w', sample_generation 1 l0 (sample_world 0) = (Undefined, w')).
Proof.
  intros l0.
  split; [exact sample_selection_exact|]. split; [reflexivity|].
  split; [split; [lia | reflexivity]|].
  destruct (population_size_after_elitism Z.ltb sample_select
              sample_cross_over sample_mutate sample_rank l0 (sample_world 0)
              sample_selection_exact eq_refl) as [Hsize Hone].
  split.
  - destruct (Hsize 2 ltac:(split; [lia | reflexivity]))
      as (l' & w' & children & Hstep & _ & _ & Hlen & _).
    exists l', w'. split; [exact Hstep | exact Hlen].
  - destruct Hone as (w' & Hstep & _). exists w'. exact Hstep.
Defined.

Lemma determinism_scenario_undefined_witness :
  selection_exact sample_select /\
  sample_world 7 = sample_world 7 /\
  sample_solve 5 1 (sample_world 7) = sample_solve 5 1 (sample_world 7) /\
  exists w', sample_solve 5 1 (sample_world 7) = (Undefined, w').
Proof.
  split; [exact sample_selection_exact|]. split; [reflexivity|].
  exact (determinism_scenario_undefined Z.ltb sample_init sample_select
           sample_cross_over sample_mutate sample_rank
           (sample_world 7) (sample_world 7) sample_selection_exact eq_refl).
Defined.

(** A run with [population_size = 0] on the sample functors: it ends in
    undefined behaviour during seeding, and selection has not been asked
    for [2^64 - 1] couples (nor for anything else). *)
Lemma zero_population_selection_not_asked :
  fst (sample_solve 1 0 (sample_world 0)) = Undefined /\
  ~ In (CallSelection (2 ^ 64 - 1)) (calls (snd (sample_solve 1 0 (sample_world 0)))).
Proof.
  split; [reflexivity|]. intros Hin. exact Hin.
Qed.

(** ** Sample runs *)

Example sample_run_three_generations :
  fst (sample_solve 3 3 (sample_world 0)) = Ok [true; true; false].
Proof. reflexivity. Qed.

Example sample_run_no_generation :
  fst (sample_solve 0 3 (sample_world 0)) = Ok [true; false; false].
Proof. reflexivity. Qed.

Example sample_run_two_steps :
  fst (sample_generations 3 2
         {| current := [([false; false; false], 0); ([true; false; false], 1);
                        ([false; true; false], 1)];
            next := [];
            best := ([true; false; false], 1) |}
         (sample_world 3))
  = Ok {| current := [([false; true; false], 1); ([false; true; false], 1);
                      ([true; true; false], 2)];
          next := [];
          best := ([true; true; false], 2) |}.
Proof. reflexivity. Qed.

Example split_longer_second_parent_out_of_range :
  RandomSplitCrossOver_call (H:=counter_engine)
    (mk_RandomSplitCrossOver (H:=counter_engine) 4 1)
    [true; true; true; true] [false; false; false; false; false] = None.
Proof. reflexivity. Qed.

Example mix_shorter_second_parent_out_of_range :
  RandomMixCrossOver_call (H:=counter_engine)
    (mk_RandomMixCrossOver (H:=counter_engine) 0) [true; true; true] [false] = None.
Proof. reflexivity. Qed.

(** ** More on the crossover operators *)

Section CrossOverBounds.
Context `{RandomEngine}.

(** A copy loop is defined exactly when it is empty or its whole window
    lies inside both the source and the destination. *)
Lemma copy_bits_is_Some (src : list bool) (n from : nat) (dest : list bool) :
  is_Some (copy_bits src from n dest) <->
  n = 0%nat \/ ((from + n <= length src)%nat /\ (from + n <= length dest)%nat).
Proof.
  split.
  - revert from dest. induction n as [|n IH]; intros from dest [d Hd]; [by left|].
    right. cbn [copy_bits] in Hd.
    destruct (assign_bit dest from src) as [d1|] eqn:H1; cbn in Hd; [|discriminate].
    destruct (assign_bit_inv _ _ _ _ H1) as (v & Hv & Hlt & ->).
    apply lookup_lt_Some in Hv.
    destruct (IH (S from) (<[from:=v]> dest)) as [->|[Hs Hdst]]; [by eexists| |].
    + lia.
    + rewrite length_insert in Hdst. lia.
  - intros [->|[Hs Hd]]; [by eexists|].
    rewrite copy_bits_window by assumption. by eexists.
Qed.

(** The two copy loops of the split crossover on parents of one length. *)
Lemma split_copies (x y : list bool) (pos N : nat) :
  length x = N -> length y = N -> (pos <= N)%nat ->
  (d ← copy_bits x 0 pos (bitset_new N); copy_bits y pos (length y - pos) d)
  = Some (take pos x ++ drop pos y).
Proof.
  intros Hx Hy Hpos.
  assert (Hnew : length (bitset_new N) = N)
    by (unfold bitset_new; apply length_replicate).
  rewrite copy_bits_window by lia. cbn.
  rewrite ?take_0, ?drop_0. cbn [app].
  rewrite copy_bits_window; cycle 1.
  { lia. }
  { rewrite length_app, length_take, length_drop. lia. }
  f_equal.
  rewrite take_app_length' by (rewrite length_take; lia).
  rewrite (drop_ge (_ ++ _))
    by (rewrite length_app, length_take, length_drop; lia).
  rewrite app_nil_r. f_equal. apply take_ge. rewrite length_drop. lia.
Qed.

(** X1. When the split crossover is defined.  With [pos] the drawn position
    and [c] the drawn coin, a call returns a child exactly when
    [pos <= a.size()] and, for [c = 0], [b.size() <= a.size()], for
    [c <> 0], [pos <= b.size()]; in every other case one of the two loops
    indexes a bitset out of range. *)
Theorem split_crossover_defined_iff (self : RandomSplitCrossOver) (a b : list bool) :
  let draw1 := uniform_int 0 (split_int_hi self) (split_rng self) in
  let pos := Z.to_nat (fst draw1) in
  let c := fst (uniform_int 0 1 (snd draw1)) in
  is_Some (RandomSplitCrossOver_call self a b) <->
  (pos <= length a)%nat /\
  (if c =? 0 then (length b <= length a)%nat else (pos <= length b)%nat).
Proof.
  intros draw1 pos c. unfold RandomSplitCrossOver_call. fold draw1.
  destruct draw1 as [p g1] eqn:Hd1. cbn [fst snd] in pos, c.
  destruct (uniform_int 0 1 g1) as [c0 g2] eqn:Hd2. cbn [fst] in c.
  subst c. fold pos.
  assert (Hnew : length (bitset_new (length a)) = length a)
    by (unfold bitset_new; apply length_replicate).
  destruct (c0 =? 0).
  - destruct (copy_bits a 0 pos (bitset_new (length a))) as [d|] eqn:H1; cbn.
    + pose proof (copy_bits_length _ _ _ _ _ H1) as Hd.
      assert (H1' : is_Some (copy_bits a 0 pos (bitset_new (length a))))
        by (by eexists).
      apply copy_bits_is_Some in H1'.
      destruct (copy_bits b pos (length b - pos) d) as [d'|] eqn:H2; cbn.
      * assert (H2' : is_Some (copy_bits b pos (length b - pos) d))
          by (by eexists).
        apply copy_bits_is_Some in H2'. split; [intros _; lia | by eexists].
      * split; [by intros [? ?]|]. intros [Hp Hb]. exfalso.
        assert (H2' : is_Some (copy_bits b pos (length b - pos) d))
          by (apply copy_bits_is_Some; lia).
        rewrite H2 in H2'. by destruct H2'.
    + split; [by intros [? ?]|]. intros [Hp Hb]. exfalso.
      assert (H1' : is_Some (copy_bits a 0 pos (bitset_new (length a))))
        by (apply copy_bits_is_Some; lia).
      rewrite H1 in H1'. by destruct H1'.
  - destruct (copy_bits b 0 pos (bitset_new (length a))) as [d|] eqn:H1; cbn.
    + pose proof (copy_bits_length _ _ _ _ _ H1) as Hd.
      assert (H1' : is_Some (copy_bits b 0 pos (bitset_new (length a))))
        by (by eexists).
      apply copy_bits_is_Some in H1'.
      assert (H2' : is_Some (copy_bits a pos (length a - pos) d))
        by (apply copy_bits_is_Some; lia).
      destruct H2' as [d' ->]. cbn. split; [intros _; lia | by eexists].
    + split; [by intros [? ?]|]. intros [Hp Hb]. exfalso.
      assert (H1' : is_Some (copy_bits b 0 pos (bitset_new (length a))))
        by (apply copy_bits_is_Some; lia).
      rewrite H1 in H1'. by destruct H1'.
Qed.


(** The coins of the mixing loop decide it: the loop is defined exactly
    when every round whose coin is not 0 finds its index inside [b], and
    then round [j] has copied bit [i + j] from the parent its coin names. *)
Lemma mix_loop_by_coins (a b : list bool) (n i : nat) (g : rng) (dest : list bool) :
  (i + n <= length a)%nat -> (i + n <= length dest)%nat ->
  let coins := fst (coin_flips n g) in
  ((forall j c, coins !! j = Some c -> c <> 0 -> (i + j < length b)%nat) ->
   exists d,
     mix_loop a b i n g dest = Some (d, snd (coin_flips n g)) /\
     length d = length dest /\
     (forall j, (j < i)%nat -> d !! j = dest !! j) /\
     (forall j c, coins !! j = Some c ->
        d !! (i + j)%nat = if c =? 0 then a !! (i + j)%nat else b !! (i + j)%nat)) /\
  (is_Some (mix_loop a b i n g dest) ->
   forall j c, coins !! j = Some c -> c <> 0 -> (i + j < length b)%nat).
Proof.
  revert i g dest. induction n as [|n IH]; intros i g dest Ha Hd; cbn [coin_flips mix_loop].
  - cbn. split.
    + intros _. exists dest. repeat split; try done.
    + intros _ j c Hj. done.
  - destruct (uniform_int 0 1 g) as [c0 g1].
    specialize (IH (S i) g1).
    destruct (coin_flips n g1) as [cs g2] eqn:Hcs. cbn [fst snd] in *.
    destruct (assign_bit_Some dest a i) as (va & Hva & Ea); [lia..|].
    split.
    + intros Hin.
      assert (Hstep : exists v,
                 (if c0 =? 0 then assign_bit dest i a else assign_bit dest i b)
                   = Some (<[i:=v]> dest) /\
                 Some v = if c0 =? 0 then a !! i else b !! i).
      { destruct (Z.eqb_spec c0 0) as [->|Hne].
        - exists va. by rewrite Hva.
        - assert (Hb : (i < length b)%nat)
            by (specialize (Hin 0%nat c0 eq_refl Hne); lia).
          destruct (assign_bit_Some dest b i) as (vb & Hvb & Eb); [lia..|].
          exists vb. by rewrite Hvb. }
      destruct Hstep as (v & -> & Hv). cbn.
      destruct (IH (<[i:=v]> dest)) as [Hdef _];
        [lia | rewrite length_insert; lia |].
      destruct Hdef as (d & Hrun & Hlen & Hlow & Hwin).
      { intros j c Hj Hc. specialize (Hin (S j) c Hj Hc). lia. }
      exists d. split; [exact Hrun|].
      split; [by rewrite Hlen, length_insert|].
      split.
      * intros j Hj. rewrite Hlow by lia. apply list_lookup_insert_ne. lia.
      * intros [|j] c Hj; cbn in Hj.
        -- injection Hj as <-. rewrite Nat.add_0_r, Hlow by lia.
           rewrite list_lookup_insert_eq by lia. exact Hv.
        -- replace (i + S j)%nat with (S i + j)%nat by lia. by apply Hwin.
    + intros [r Hr] [|j] c Hj Hc; cbn in Hj.
      * injection Hj as <-. rewrite Nat.add_0_r.
        destruct (Z.eqb_spec c0 0) as [|_]; [done|].
        destruct (assign_bit dest i b) as [d1|] eqn:H1; cbn in Hr; [|discriminate].
        destruct (assign_bit_inv _ _ _ _ H1) as (v & Hv & _).
        by apply lookup_lt_Some in Hv.
      * destruct (if c0 =? 0 then assign_bit dest i a else assign_bit dest i b)
          as [d1|] eqn:H1; cbn in Hr; [|discriminate].
        assert (Hlen1 : length d1 = length dest)
          by (destruct (c0 =? 0); eapply assign_bit_length, H1).
        destruct (IH d1) as [_ Hnec]; [lia | lia |].
        specialize (Hnec ltac:(by eexists) j c Hj Hc). lia.
Qed.

Lemma coin_flips_length (n : nat) (g : rng) : length (fst (coin_flips n g)) = n.
Proof.
  revert g. induction n as [|n IH]; intros g; cbn [coin_flips]; [done|].
  destruct (uniform_int 0 1 g) as [c g1]. specialize (IH g1).
  destruct (coin_flips n g1) as [cs g2]. cbn in *. by rewrite IH.
Qed.

(** X2. The mix crossover, bit by bit.  Let [coins] be the [a.size()]
    draws the loop makes.  If every round whose coin is not 0 has its
    index inside [b] (always so when [b] is at least as long as [a]), the
    call returns; the child has [a.size()] bits, bit [i] is [a[i]] when coin
    [i] is 0 and [b[i]] otherwise, and the engine has advanced by exactly
    [a.size()] draws. *)
Theorem mix_crossover_by_coins (self : RandomMixCrossOver) (a b : list bool) :
  let coins := fst (coin_flips (length a) (mix_rng self)) in
  (forall i c, coins !! i = Some c -> c <> 0 -> (i < length b)%nat) ->
  exists child,
    RandomMixCrossOver_call self a b =
      Some (child, {| mix_rng := snd (coin_flips (length a) (mix_rng self)) |}) /\
    length child = length a /\
    forall i c, coins !! i = Some c ->
      child !! i = if c =? 0 then a !! i else b !! i.
Proof.
  intros coins Hin. unfold RandomMixCrossOver_call.
  assert (Hnew : length (bitset_new (length a)) = length a)
    by (unfold bitset_new; apply length_replicate).
  destruct (mix_loop_by_coins a b (length a) 0 (mix_rng self) (bitset_new (length a)))
    as [Hdef _]; [lia..|].
  destruct Hdef as (d & -> & Hlen & _ & Hbits); [exact Hin|].
  cbn. exists d. split; [reflexivity|]. split; [lia|]. exact Hbits.
Qed.

(** X3. When the mix crossover is defined: exactly when every round whose
    coin is not 0 has its index inside [b].  A shorter [b] is read out of
    range by the first such round past its end. *)
Theorem mix_crossover_defined_iff (self : RandomMixCrossOver) (a b : list bool) :
  let coins := fst (coin_flips (length a) (mix_rng self)) in
  is_Some (RandomMixCrossOver_call self a b) <->
  (forall i c, coins !! i = Some c -> c <> 0 -> (i < length b)%nat).
Proof.
  intros coins. unfold RandomMixCrossOver_call.
  assert (Hnew : length (bitset_new (length a)) = length a)
    by (unfold bitset_new; apply length_replicate).
  destruct (mix_loop_by_coins a b (length a) 0 (mix_rng self) (bitset_new (length a)))
    as [Hdef Hnec]; [lia..|].
  split.
  - intros Hsome. apply Hnec.
    destruct (mix_loop a b 0 (length a) (mix_rng self) (bitset_new (length a)));
      [by eexists | by destruct Hsome].
  - intros Hin. destruct (Hdef Hin) as (d & -> & _). cbn. by eexists.
Qed.

(** X4. Crossing a genotype with itself gives it back, for both
    operators: the split crossover whenever its split range ends within
    the genotype, the mix crossover always. *)
Theorem crossover_of_identical_parents :
  (forall (self : RandomSplitCrossOver) (a : list bool),
      0 <= split_int_hi self <= Z.of_nat (length a) ->
      exists self', RandomSplitCrossOver_call self a a = Some (a, self')) /\
  (forall (self : RandomMixCrossOver) (a : list bool),
      exists self', RandomMixCrossOver_call self a a = Some (a, self')).
Proof.
  split.
  - intros self a Hhi.
    pose proof (uniform_int_range 0 (split_int_hi self) (split_rng self)
                  ltac:(lia)) as Hp.
    unfold RandomSplitCrossOver_call.
    destruct (uniform_int 0 (split_int_hi self) (split_rng self)) as [p g1].
    cbn [fst] in Hp.
    destruct (uniform_int 0 1 g1) as [c g2].
    assert (E : (if c =? 0
                 then d ← copy_bits a 0 (Z.to_nat p) (bitset_new (length a));
                      copy_bits a (Z.to_nat p) (length a - Z.to_nat p) d
                 else d ← copy_bits a 0 (Z.to_nat p) (bitset_new (length a));
                      copy_bits a (Z.to_nat p) (length a - Z.to_nat p) d)
                = Some a).
    { rewrite (split_copies a a (Z.to_nat p) (length a)) by (done || lia).
      rewrite take_drop. by destruct (c =? 0). }
    rewrite E. cbn. by eexists.
  - intros self a.
    destruct (mix_crossover_by_coins self a a) as (child & -> & Hlen & Hbits).
    { intros i c Hi _. apply lookup_lt_Some in Hi.
      by rewrite coin_flips_length in Hi. }
    eexists. do 2 f_equal. f_equal. apply list_eq. intros i.
    destruct (decide (i < length a)%nat) as [Hi|Hi].
    + destruct (lookup_lt_is_Some_2 (fst (coin_flips (length a) (mix_rng self))) i)
        as [c Hc]; [by rewrite coin_flips_length|].
      rewrite (Hbits i c Hc). by destruct (c =? 0).
    + rewrite !lookup_ge_None_2 by lia. done.
Qed.


(** The split crossover built for [N] recombines at [N]; its split range
    is what its objects keep. *)
Lemma split_recombines (N : nat) :
  (1 <= N)%nat -> Z.of_nat N < size_t_modulus ->
  recombines_at N (fun f : RandomSplitCrossOver =>
                     split_int_hi f = (Z.of_nat N - 1) mod size_t_modulus).
Proof.
  intros HN Hmax f a b Hhi Ha Hb.
  assert (Hhi' : split_int_hi f = Z.of_nat N - 1)
    by (rewrite Hhi; apply Z.mod_small; lia).
  pose proof (uniform_int_range 0 (split_int_hi f) (split_rng f) ltac:(lia)) as Hp.
  unfold cross_over, RandomSplitCrossOver_functor, RandomSplitCrossOver_call.
  destruct (uniform_int 0 (split_int_hi f) (split_rng f)) as [p g1].
  cbn [fst] in Hp.
  destruct (uniform_int 0 1 g1) as [c g2].
  set (pos := Z.to_nat p). assert (Hpos : (pos <= N)%nat) by lia.
  assert (Hbits : forall x y : list bool, length x = N -> length y = N ->
            length (take pos x ++ drop pos y) = N /\
            forall i, (take pos x ++ drop pos y) !! i = x !! i \/
                      (take pos x ++ drop pos y) !! i = y !! i).
  { intros x y Hx Hy. split.
    - rewrite length_app, length_take, length_drop. lia.
    - intros i. destruct (decide (i < pos)%nat) as [Hi|Hi].
      + left. rewrite lookup_app_l by (rewrite length_take; lia).
        by apply lookup_take_lt.
      + right. rewrite lookup_app_r by (rewrite length_take; lia).
        rewrite length_take, lookup_drop. f_equal. lia. }
  replace (bitset_new (length a)) with (bitset_new N) by (by rewrite Ha).
  destruct (c =? 0).
  - rewrite (split_copies a b pos N) by assumption. cbn.
    eexists _, _. split; [reflexivity|]. split; [exact Hhi|].
    by apply Hbits.
  - rewrite (split_copies b a pos N) by assumption. cbn.
    eexists _, _. split; [reflexivity|]. split; [exact Hhi|].
    destruct (Hbits b a Hb Ha) as [Hl Hi]. split; [exact Hl|].
    intros i. destruct (Hi i); [by right | by left].
Qed.

(** The mix crossover recombines at every length. *)
Lemma mix_recombines (N : nat) :
  recombines_at N (fun _ : RandomMixCrossOver => True).
Proof.
  intros f a b _ Ha Hb.
  unfold cross_over, RandomMixCrossOver_functor, RandomMixCrossOver_call.
  destruct (mix_loop_window a b (length a) 0 (mix_rng f) (bitset_new (length a)))
    as (d & g' & -> & Hlen & _ & Hwin);
    [unfold bitset_new; rewrite ?length_replicate; lia..|].
  cbn. eexists _, _. split; [reflexivity|]. split; [done|].
  assert (Hd : length d = N)
    by (rewrite Hlen; unfold bitset_new; rewrite length_replicate; lia).
  split; [exact Hd|].
  intros i. destruct (decide (i < length a)%nat) as [Hi|Hi].
  - apply Hwin. lia.
  - left. rewrite !lookup_ge_None_2 by lia. done.
Qed.

(** X5. Gating keeps recombination: if the wrapped operator recombines at
    length [N], so does the probability-gated wrapper around it, for every
    rate [prob]; its objects are those whose wrapped object is in order.
    (A pass-through returns a parent, a delegated call a child of the
    wrapped operator.) *)
Theorem gated_crossover_recombines {F : Type} `{CrossOverFunctor F}
    (N : nat) (Inv : F -> Prop) :
  recombines_at N Inv ->
  recombines_at N (fun w : CrossOverOnProbWrapper F => Inv (wrap_crossover w)).
Proof.
  intros Hrec w a b Hinv Ha Hb.
  unfold cross_over at 1, CrossOverOnProbWrapper_functor, CrossOverOnProbWrapper_call.
  destruct (uniform_real 0 1 (wrap_rng w)) as [u g1].
  destruct (Qltb u (wrap_prob w)).
  - destruct (Hrec (wrap_crossover w) a b Hinv Ha Hb)
      as (child & f' & -> & Hinv' & Hlen & Hbits).
    cbn. eexists _, _. split; [reflexivity|]. by repeat split.
  - destruct (uniform_int 0 1 g1) as [c g2].
    eexists _, _. split; [reflexivity|]. split; [exact Hinv|].
    destruct (c =? 0); (split; [assumption|]); intros i; [by left | by right].
Qed.

(** X6. Reuse.  One object of an operator that recombines at length [N],
    called on any number of parent pairs of [N] bits one after the other
    (as the loop of [solve] does), returns one child per pair, each of [N]
    bits, and is in order afterwards. *)
Theorem cross_over_all_recombines {F : Type} `{CrossOverFunctor F}
    (N : nat) (Inv : F -> Prop) (pairs : list (list bool * list bool)) (f : F) :
  recombines_at N Inv -> Inv f ->
  Forall (fun ab => length (fst ab) = N /\ length (snd ab) = N) pairs ->
  exists children f',
    cross_over_all f pairs = Some (children, f') /\ Inv f' /\
    length children = length pairs /\
    Forall (fun child => length child = N) children.
Proof.
  intros Hrec. revert f. induction pairs as [|[a b] rest IH]; intros f Hinv Hall.
  - exists [], f. cbn. by repeat split.
  - apply Forall_cons in Hall as [[Ha Hb] Hrest]. cbn [fst snd] in Ha, Hb.
    destruct (Hrec f a b Hinv Ha Hb) as (child & f1 & Hcall & Hinv1 & Hlen & _).
    destruct (IH f1 Hinv1 Hrest) as (children & f2 & Hall2 & Hinv2 & Hcount & Hlens).
    exists (child :: children), f2. cbn [cross_over_all fst snd].
    rewrite Hcall. cbn. rewrite Hall2. cbn.
    split; [reflexivity|]. split; [exact Hinv2|].
    split; [by rewrite Hcount|]. by constructor.
Qed.

End CrossOverBounds.

Section ProbWrapperBounds.
Context `{RandomEngine} {F : Type} `{CrossOverFunctor F}.

(** X7. Rates outside [0, 1] are not rejected, they saturate: with
    [prob >= 1] every call is the wrapped operator's call, with
    [prob <= 0] every call returns parent [a] or parent [b] as it is and
    leaves the wrapped operator alone. *)
Theorem prob_gate_saturates (self : CrossOverOnProbWrapper F) (a b : list bool) :
  ((1 <= wrap_prob self)%Q ->
     CrossOverOnProbWrapper_call self a b =
       match cross_over (wrap_crossover self) a b with
       | Some (child, f') =>
           Some (child, {| wrap_rng := snd (uniform_real 0 1 (wrap_rng self));
                           wrap_prob := wrap_prob self;
                           wrap_crossover := f' |})
       | None => None
       end) /\
  ((wrap_prob self <= 0)%Q ->
     exists self',
       (CrossOverOnProbWrapper_call self a b = Some (a, self') \/
        CrossOverOnProbWrapper_call self a b = Some (b, self')) /\
       wrap_crossover self' = wrap_crossover self /\
       wrap_prob self' = wrap_prob self).
Proof.
  pose proof (uniform_real_range 0 1 (wrap_rng self) ltac:(reflexivity)) as [Hlo Hhi].
  unfold CrossOverOnProbWrapper_call.
  destruct (uniform_real 0 1 (wrap_rng self)) as [u g1]. cbn [fst snd] in *.
  split; intros Hp.
  - assert (Hgate : Qltb u (wrap_prob self) = true).
    { unfold Qltb.
      by rewrite (proj1 (Qlt_alt u (wrap_prob self)) (Qlt_le_trans _ _ _ Hhi Hp)). }
    rewrite Hgate.
    destruct (cross_over (wrap_crossover self) a b) as [[child f']|]; reflexivity.
  - assert (Hgate : Qltb u (wrap_prob self) = false).
    { unfold Qltb. destruct (u ?= wrap_prob self)%Q eqn:Hc; try reflexivity.
      exfalso. apply (proj2 (Qlt_alt u (wrap_prob self))) in Hc.
      exact (Qlt_not_le _ _ Hc (Qle_trans _ _ _ Hp Hlo)). }
    rewrite Hgate.
    destruct (uniform_int 0 1 g1) as [c g2].
    exists {| wrap_rng := g2; wrap_prob := wrap_prob self;
              wrap_crossover := wrap_crossover self |}.
    split; [|by split].
    destruct (c =? 0); [left | right]; reflexivity.
Qed.

End ProbWrapperBounds.

(** ** More on the solver *)

Lemma count_calls_app (k : Kind) (xs ys : list Event) :
  count_calls k (xs ++ ys) = (count_calls k xs + count_calls k ys)%nat.
Proof. unfold count_calls. by rewrite List.filter_app, length_app. Qed.

Lemma ranked_app (xs ys : list Event) : ranked (xs ++ ys) = ranked xs ++ ranked ys.
Proof.
  induction xs as [|e xs IH]; [done|].
  destruct e; cbn; by rewrite ?IH.
Qed.

Lemma requested_app (xs ys : list Event) :
  requested (xs ++ ys) = requested xs ++ requested ys.
Proof.
  induction xs as [|e xs IH]; [done|].
  destruct e; cbn; by rewrite ?IH.
Qed.

Section SolverAccounting.
Context {T : Type} (ltb : T -> T -> bool).
Context {SI SS SC SM : Type}.
Variable init_func : SI -> list bool * SI.
Variable select_func : SS -> list (@hypothesis T) -> Z -> list couple * SS.
Variable cross_over_func : SC -> list bool -> list bool -> list bool * SC.
Variable mutate_func : SM -> list bool -> list bool * SM.
Variable rank_func : list bool -> T.

Local Abbreviation W := (@World SI SS SC SM).
Local Abbreviation init_n := (@init_loop T SI SS SC SM init_func rank_func).
Local Abbreviation breed := (@for_each_couple T SI SS SC SM cross_over_func mutate_func rank_func).
Local Abbreviation step := (generation ltb select_func cross_over_func mutate_func rank_func).
Local Abbreviation steps := (generations ltb select_func cross_over_func mutate_func rank_func).
Local Abbreviation seed := (@seeding T ltb SI SS SC SM init_func rank_func).
Local Abbreviation run := (solve ltb init_func select_func cross_over_func mutate_func rank_func).
Local Abbreviation scored :=
  (fun P : list (@hypothesis T) => forall h, In h P -> snd h = rank_func (fst h)).

(** The log of the breeding loop. *)
Lemma for_each_couple_log (couples : list couple) (nxt : Population) (w : W) :
  exists new w' evs,
    breed couples nxt w = (Ok (nxt ++ new), w') /\
    length new = length couples /\ scored new /\
    calls w' = calls w ++ evs /\
    ranked evs = map fst new /\ requested evs = [] /\
    forall k, count_calls k evs = (length couples * calls_per_couple k)%nat.
Proof.
  revert nxt w. induction couples as [|cpl rest IH]; intros nxt w.
  - exists [], w, []. cbn. rewrite !app_nil_r. repeat split; try done.
  - cbn [for_each_couple]. unfold bind at 1, call_cross_over.
    destruct (cross_over_func (cross_st w) cpl.1 cpl.2) as [child sc].
    unfold bind at 1, call_mutate. cbn [cross_st mutate_st record].
    destruct (mutate_func (mutate_st w) child) as [mutant sm].
    unfold bind at 1. rewrite push_run.
    match goal with |- context [for_each_couple _ _ _ rest ?P ?w0] =>
      destruct (IH P w0) as (new & w' & evs & Hrun & Hlen & Hsc & Hev & Hrk & Hrq & Hcnt)
    end.
    exists ((mutant, rank_func mutant) :: new), w',
      ([CallCrossOver cpl.1 cpl.2; CallMutation child; CallRank mutant] ++ evs).
    split; [rewrite Hrun; by rewrite <- app_assoc|].
    split; [cbn; by rewrite Hlen|].
    split; [intros h [<-|Hh]; [done | by apply Hsc]|].
    split; [rewrite Hev; cbn; by rewrite <- !app_assoc|].
    split; [cbn; by rewrite Hrk|]. split; [exact Hrq|].
    intros k. rewrite count_calls_app, Hcnt. destruct k; cbn; lia.
Qed.

(** The log of the initial fill. *)
Lemma init_loop_log (n : nat) (P : Population) (w : W) :
  exists new w' evs,
    init_n n P w = (Ok (P ++ new), w') /\
    length new = n /\ scored new /\
    calls w' = calls w ++ evs /\
    ranked evs = map fst new /\ requested evs = [] /\
    forall k, count_calls k evs = (n * calls_per_member k)%nat.
Proof.
  revert P w. induction n as [|n IH]; intros P w.
  - exists [], w, []. cbn. rewrite !app_nil_r. repeat split; try done.
  - cbn [init_loop]. unfold bind at 1, call_init.
    destruct (init_func (init_st w)) as [c s].
    unfold bind at 1. rewrite push_run.
    match goal with |- context [init_loop _ _ n ?P0 ?w0] =>
      destruct (IH P0 w0) as (new & w' & evs & Hrun & Hlen & Hsc & Hev & Hrk & Hrq & Hcnt)
    end.
    exists ((c, rank_func c) :: new), w', ([CallInitializer; CallRank c] ++ evs).
    split; [rewrite Hrun; by rewrite <- app_assoc|].
    split; [cbn; by rewrite Hlen|].
    split; [intros h [<-|Hh]; [done | by apply Hsc]|].
    split; [rewrite Hev; cbn; by rewrite <- !app_assoc|].
    split; [cbn; by rewrite Hrk|]. split; [exact Hrq|].
    intros k. rewrite count_calls_app, Hcnt. destruct k; cbn; lia.
Qed.

(** One iteration entered with an empty [next], with its log. *)
Lemma generation_log (n : Z) (l : Locals) (w : W) :
  next l = [] ->
  exists children w2 evs,
    length children =
      length (fst (select_func (select_st w) (current l) (couples_requested n))) /\
    scored children /\
    ranked evs = map fst children /\ requested evs = [] /\
    (forall k, count_calls k evs = (length children * calls_per_couple k)%nat) /\
    calls w2 = calls w ++ CallSelection (couples_requested n) :: evs /\
    step n l w =
      match top_member ltb children with
      | None => (Undefined, w2)
      | Some t =>
          let best1 := if ltb (snd (best l)) (snd t) then t else best l in
          (Ok {| current := children ++ [(fst best1, rank_func (fst best1))];
                 next := [];
                 best := best1 |},
           record (CallRank (fst best1)) w2)
      end.
Proof.
  intros Hnext. unfold generation, Population_select.
  unfold bind at 1, call_select.
  destruct (select_func (select_st w) (current l) (couples_requested n))
    as [couples ss]. cbn [fst].
  set (w0 := record (CallSelection (couples_requested n))
               {| init_st := init_st w; select_st := ss; cross_st := cross_st w;
                  mutate_st := mutate_st w; calls := calls w |}).
  destruct (for_each_couple_log couples (next l) w0)
    as (children & w2 & evs & Hrun & Hlen & Hsc & Hev & Hrk & Hrq & Hcnt).
  rewrite Hnext in Hrun. cbn [app] in Hrun.
  exists children, w2, evs.
  split; [exact Hlen|]. split; [exact Hsc|]. split; [exact Hrk|].
  split; [exact Hrq|]. split; [intros k; by rewrite Hcnt, Hlen|].
  split; [rewrite Hev; subst w0; cbn; by rewrite <- app_assoc|].
  rewrite Hnext. unfold bind at 1. rewrite Hrun.
  unfold Population_top. destruct (top_member ltb children) as [t|].
  - unfold bind at 1, ret. unfold bind at 1. rewrite push_run. reflexivity.
  - reflexivity.
Qed.

(** X8. [solve] does not check what selection returns.  An iteration
    entered with an empty [next] completes exactly when selection returned
    at least one couple, whatever count was requested, and then [current]
    holds one member per returned couple plus the pushed best; with no
    couple returned it takes [top] of an empty population. *)
Theorem iteration_follows_selection (n : Z) (l : Locals) (w : W) :
  next l = [] ->
  let couples := fst (select_func (select_st w) (current l) (couples_requested n)) in
  (couples = [] -> exists w', step n l w = (Undefined, w')) /\
  (couples <> [] ->
     exists l' w',
       step n l w = (Ok l', w') /\
       length (current l') = S (length couples) /\
       next l' = []).
Proof.
  intros Hnext couples.
  destruct (generation_log n l w Hnext)
    as (children & w2 & evs & Hlen & _ & _ & _ & _ & _ & Hstep).
  fold couples in Hlen. split.
  - intros Hnil. rewrite Hnil in Hlen. destruct children; [|discriminate].
    cbn in Hstep. by eexists.
  - intros Hne. destruct children as [|h rest] eqn:Hch.
    { destruct couples; [done | discriminate]. }
    cbn [top_member] in Hstep. cbn zeta in Hstep.
    eexists _, _. split; [exact Hstep|]. cbn [current next].
    split; [|reflexivity]. rewrite length_app, <- Hlen. cbn. lia.
Qed.


(** The seeding phase, with its log. *)
Lemma seeding_log (n : Z) (w : W) :
  exists P w0 evs,
    length P = Z.to_nat n /\ scored P /\
    calls w0 = calls w ++ evs /\
    ranked evs = map fst P /\ requested evs = [] /\
    (forall k, count_calls k evs = (Z.to_nat n * calls_per_member k)%nat) /\
    seed n w =
      match top_member ltb P with
      | None => (Undefined, w0)
      | Some b => (Ok {| current := P; next := []; best := b |}, w0)
      end.
Proof.
  destruct (init_loop_log (Z.to_nat n) [] w)
    as (P & w0 & evs & Hrun & Hlen & Hsc & Hev & Hrk & Hrq & Hcnt).
  cbn [app] in Hrun. exists P, w0, evs.
  do 6 (split; [assumption|]).
  unfold seeding, Population_init. unfold bind at 1. rewrite Hrun.
  unfold Population_top. destruct (top_member ltb P); reflexivity.
Qed.

(** Iterations of a run whose selection honours its contract, for a
    population of at least two. *)
Lemma generations_log (n : Z) (k : nat) (l : Locals) (w : W) :
  selection_exact select_func -> 2 <= n < size_t_modulus -> next l = [] ->
  exists l' w' evs,
    steps n k l w = (Ok l', w') /\ next l' = [] /\
    ((k = 0%nat /\ l' = l) \/ Z.of_nat (length (current l')) = n) /\
    calls w' = calls w ++ evs /\
    requested evs = replicate k (n - 1) /\
    forall K, count_calls K evs = (k * calls_per_iteration K (Z.to_nat (n - 1)))%nat.
Proof.
  intros Hsel Hn. revert l w. induction k as [|k IH]; intros l w Hnext.
  - exists l, w, []. cbn. rewrite app_nil_r. repeat split; try done. by left.
  - destruct (generation_log n l w Hnext)
      as (children & w2 & evs & Hlen & _ & _ & Hrq & Hcnt & Hev & Hstep).
    assert (Hreq : couples_requested n = n - 1)
      by (unfold couples_requested; apply Z.mod_small; lia).
    rewrite Hreq in Hlen, Hev.
    pose proof (Hsel (select_st w) (current l) (n - 1) ltac:(lia)) as Hcount.
    rewrite <- Hlen in Hcount.
    destruct children as [|h rest] eqn:Hch; [cbn in Hcount; lia|].
    rewrite <- Hch in *. assert (Htop : exists t, top_member ltb children = Some t)
      by (rewrite Hch; cbn; eauto).
    destruct Htop as [t Ht]. rewrite Ht in Hstep. cbn zeta in Hstep.
    set (best1 := if ltb (snd (best l)) (snd t) then t else best l) in *.
    set (l1 := {| current := children ++ [(fst best1, rank_func (fst best1))];
                  next := []; best := best1 |}) in *.
    destruct (IH l1 (record (CallRank (fst best1)) w2) eq_refl)
      as (l' & w' & evs' & Hrun & Hnext' & Hsize & Hev' & Hrq' & Hcnt').
    exists l', w', ((CallSelection (n - 1) :: evs ++ [CallRank (fst best1)]) ++ evs').
    split; [cbn [generations]; unfold bind at 1; by rewrite Hstep|].
    split; [exact Hnext'|].
    split.
    { right. destruct Hsize as [[_ ->]|Hsize]; [|exact Hsize].
      subst l1. cbn [current]. rewrite length_app, Nat2Z.inj_add.
      change (Z.of_nat (length children)) with
        (Z.of_nat (length (A:=hypothesis) children)).
      rewrite Hcount. cbn. lia. }
    split.
    { rewrite Hev'. cbn [record calls]. rewrite Hev.
      rewrite <- !app_assoc. cbn. by rewrite <- !app_assoc. }
    split.
    { rewrite requested_app. cbn [requested]. rewrite requested_app, Hrq, Hrq'.
      reflexivity. }
    intros K. rewrite count_calls_app, Hcnt'.
    change (CallSelection (n - 1) :: evs ++ [CallRank (fst best1)])
      with ([CallSelection (n - 1)] ++ evs ++ [CallRank (fst best1)]).
    rewrite !count_calls_app, Hcnt.
    assert (Hc : length children = Z.to_nat (n - 1)) by lia.
    rewrite Hc. unfold calls_per_iteration. destruct K; cbn; lia.
Qed.

(** X9. Runs that cannot go wrong.  With a selection functor that honours
    its contract and [2 <= population_size], [solve] returns for every
    number of iterations; it never takes [top] of an empty population, and
    when the loop ends [current] holds exactly [population_size] members
    and [next] is empty. *)
Theorem solve_returns_with_full_population (k n : Z) (w : W) :
  selection_exact select_func -> 2 <= n < size_t_modulus ->
  exists l0 w0 l' w',
    seed n w = (Ok l0, w0) /\
    steps n (Z.to_nat k) l0 w0 = (Ok l', w') /\
    run k n w = (Ok (fst (best l')), w') /\
    Z.of_nat (length (current l')) = n /\ next l' = [].
Proof.
  intros Hsel Hn.
  destruct (seeding_log n w) as (P & w0 & evs0 & Hlen & _ & _ & _ & _ & _ & Hseed).
  destruct (top_member_nonempty ltb P) as [b Hb]; [lia|].
  rewrite Hb in Hseed.
  set (l0 := {| current := P; next := []; best := b |}) in *.
  destruct (generations_log n (Z.to_nat k) l0 w0 Hsel Hn eq_refl)
    as (l' & w' & evs & Hrun & Hnext & Hsize & _).
  exists l0, w0, l', w'. split; [exact Hseed|]. split; [exact Hrun|].
  split.
  - unfold solve. rewrite (bind_Ok _ _ _ _ _ Hseed), (bind_Ok _ _ _ _ _ Hrun).
    reflexivity.
  - split; [|exact Hnext].
    destruct Hsize as [[_ ->]|Hsize]; [|exact Hsize].
    subst l0. cbn [current].
    change (Z.of_nat (length P)) with (Z.of_nat (length (A:=hypothesis) P)).
    rewrite Hlen. lia.
Qed.

(** X10. What a run costs.  With a selection functor that honours its
    contract, [2 <= population_size = n] and [k] iterations, [solve] makes
    [n] initializer calls, [k] selection calls (each for [n - 1] couples),
    [k (n - 1)] crossover calls, as many mutation calls, and [n (k + 1)]
    rank calls. *)
Theorem solve_call_counts (k n : Z) (w : W) :
  selection_exact select_func -> 2 <= n < size_t_modulus -> 0 <= k ->
  exists c w' evs,
    run k n w = (Ok c, w') /\ calls w' = calls w ++ evs /\
    Z.of_nat (count_calls KInitializer evs) = n /\
    Z.of_nat (count_calls KSelection evs) = k /\
    requested evs = replicate (Z.to_nat k) (n - 1) /\
    Z.of_nat (count_calls KCrossOver evs) = k * (n - 1) /\
    Z.of_nat (count_calls KMutation evs) = k * (n - 1) /\
    Z.of_nat (count_calls KRank evs) = n * (k + 1).
Proof.
  intros Hsel Hn Hk.
  destruct (seeding_log n w)
    as (P & w0 & evs0 & Hlen & _ & Hev0 & _ & Hrq0 & Hcnt0 & Hseed).
  destruct (top_member_nonempty ltb P) as [b Hb]; [lia|].
  rewrite Hb in Hseed.
  set (l0 := {| current := P; next := []; best := b |}) in *.
  destruct (generations_log n (Z.to_nat k) l0 w0 Hsel Hn eq_refl)
    as (l' & w' & evs & Hrun & _ & _ & Hev & Hrq & Hcnt).
  exists (fst (best l')), w', (evs0 ++ evs).
  split.
  { unfold solve. rewrite (bind_Ok _ _ _ _ _ Hseed), (bind_Ok _ _ _ _ _ Hrun).
    reflexivity. }
  split; [by rewrite Hev, Hev0, app_assoc|].
  rewrite requested_app, Hrq0, Hrq. cbn [app].
  rewrite !count_calls_app, !Hcnt0, !Hcnt.
  unfold calls_per_iteration, calls_per_member, calls_per_couple.
  repeat split; nia.
Qed.


(** *** The returned genotype against everything that was ranked *)

Section Maximality.
Hypothesis ltb_irrefl : forall x, ltb x x = false.
Hypothesis ltb_trans :
  forall a b c, ltb a b = true -> ltb b c = true -> ltb a c = true.
(** [operator<] orders the ranks totally up to ties: not being below is
    transitive. *)
Hypothesis ltb_negtrans :
  forall a b c, ltb a b = false -> ltb b c = false -> ltb a c = false.

Lemma ltb_asym (a b : T) : ltb a b = true -> ltb b a = false.
Proof.
  intros Hab. destruct (ltb b a) eqn:Hba; [|done].
  by rewrite <- (ltb_irrefl a), (ltb_trans a b a Hab Hba).
Qed.

(** [first_max] returns a member that no member is above. *)
Lemma first_max_is_max (l : list hypothesis) (h : hypothesis) :
  In (first_max ltb h l) (h :: l) /\
  ltb (snd (first_max ltb h l)) (snd h) = false /\
  forall x, In x l -> ltb (snd (first_max ltb h l)) (snd x) = false.
Proof.
  revert h. induction l as [|x l IH]; intros h; cbn [first_max].
  - split; [by left|]. split; [apply ltb_irrefl | by intros ? []].
  - destruct (IH (if ltb (snd h) (snd x) then x else h)) as (Hin & Hge & Hall).
    destruct (ltb (snd h) (snd x)) eqn:Hlt.
    + split; [by right|]. split.
      * eapply ltb_negtrans; [exact Hge | by apply ltb_asym].
      * intros y [<-|Hy]; [exact Hge | by apply Hall].
    + split; [destruct Hin as [<-|Hin]; [by left | by right; right]|].
      split; [exact Hge|].
      intros y [<-|Hy]; [|by apply Hall].
      eapply ltb_negtrans; [exact Hge | exact Hlt].
Qed.

Lemma top_member_is_max (P : Population) (t : hypothesis) :
  top_member ltb P = Some t ->
  In t P /\ forall x, In x P -> ltb (snd t) (snd x) = false.
Proof.
  destruct P as [|h l]; [discriminate|]. intros [= <-].
  destruct (first_max_is_max l h) as (Hin & Hge & Hall).
  split; [exact Hin|]. intros x [<-|Hx]; [exact Hge | by apply Hall].
Qed.

(** What is known of [best] once [evs] has been logged: it was ranked, with
    the rank it carries, and nothing ranked is above it. *)
Local Abbreviation leads := (fun (b : @hypothesis T) (evs : list Event) =>
  snd b = rank_func (fst b) /\ In (fst b) (ranked evs) /\
  forall c, In c (ranked evs) -> ltb (snd b) (rank_func c) = false).

Lemma seeding_leads (n : Z) (w : W) (l0 : Locals) (w0 : W) :
  seed n w = (Ok l0, w0) ->
  next l0 = [] /\ exists evs, calls w0 = calls w ++ evs /\ leads (best l0) evs.
Proof.
  destruct (seeding_log n w) as (P & w1 & evs & _ & Hsc & Hev & Hrk & _ & _ & ->).
  destruct (top_member ltb P) as [b|] eqn:Hb; [|discriminate].
  intros [= <- <-]. split; [reflexivity|]. exists evs. split; [exact Hev|].
  destruct (top_member_is_max P b Hb) as [Hin Hmax]. cbn [best].
  split; [by apply Hsc|]. rewrite Hrk. split; [by apply in_map|].
  intros c (h & <- & Hh)%in_map_iff. rewrite <- (Hsc h Hh). by apply Hmax.
Qed.

Lemma generation_leads (n : Z) (l l' : Locals) (w w' : W) (evs0 : list Event) :
  next l = [] -> leads (best l) evs0 -> step n l w = (Ok l', w') ->
  next l' = [] /\
  exists evs, calls w' = calls w ++ evs /\ leads (best l') (evs0 ++ evs).
Proof.
  intros Hnext (Hbsc & Hbin & Hbmax).
  destruct (generation_log n l w Hnext)
    as (children & w2 & evs & _ & Hsc & Hrk & _ & _ & Hev & ->).
  destruct (top_member ltb children) as [t|] eqn:Ht; [|discriminate].
  cbn zeta. intros [= <- <-]. split; [reflexivity|]. cbn [best].
  destruct (top_member_is_max children t Ht) as [Htin Htmax].
  eexists. split; [cbn [record calls]; rewrite Hev, <- app_assoc; reflexivity|].
  cbv beta. rewrite !ranked_app. cbn [ranked]. rewrite Hrk.
  cbn [ranked app].
  destruct (ltb (snd (best l)) (snd t)) eqn:Hlt.
  - split; [by apply Hsc|].
    split; [rewrite !in_app_iff; right; right; by left|].
    intros c. rewrite !in_app_iff. intros [Hc|[Hc|[<-|[]]]].
    + eapply ltb_negtrans; [by apply ltb_asym | by apply Hbmax].
    + apply in_map_iff in Hc as (h & <- & Hh). rewrite <- (Hsc h Hh). by apply Htmax.
    + rewrite <- (Hsc t Htin). apply ltb_irrefl.
  - split; [exact Hbsc|].
    split; [rewrite !in_app_iff; by left|].
    intros c. rewrite !in_app_iff. intros [Hc|[Hc|[<-|[]]]].
    + by apply Hbmax.
    + apply in_map_iff in Hc as (h & <- & Hh). rewrite <- (Hsc h Hh).
      eapply ltb_negtrans; [exact Hlt | by apply Htmax].
    + rewrite <- Hbsc. apply ltb_irrefl.
Qed.

Lemma generations_leads (n : Z) (k : nat) (l l' : Locals) (w w' : W)
    (evs0 : list Event) :
  next l = [] -> leads (best l) evs0 -> steps n k l w = (Ok l', w') ->
  exists evs, calls w' = calls w ++ evs /\ leads (best l') (evs0 ++ evs).
Proof.
  revert l w evs0. induction k as [|k IH]; intros l w evs0 Hnext Hlead;
    cbn [generations].
  - intros [= <- <-]. exists []. by rewrite !app_nil_r.
  - unfold bind at 1.
    destruct (step n l w) as [[l1|] w1] eqn:E1; [|discriminate].
    intros E2.
    destruct (generation_leads n l l1 w w1 evs0 Hnext Hlead E1)
      as (Hnext1 & evs1 & Hev1 & Hlead1).
    destruct (IH l1 w1 (evs0 ++ evs1) Hnext1 Hlead1 E2) as (evs2 & Hev2 & Hlead2).
    exists (evs1 ++ evs2). split; [by rewrite Hev2, Hev1, app_assoc|].
    by rewrite app_assoc.
Qed.

(** X11. Whenever [solve] returns, the genotype it returns was itself
    ranked during the run, and no genotype ranked during the run (initial
    members, children, re-inserted best) has a rank above its rank. *)
Theorem returned_genotype_is_best_ranked (k n : Z) (w w' : W) (c : list bool) :
  run k n w = (Ok c, w') ->
  exists evs,
    calls w' = calls w ++ evs /\
    In c (ranked evs) /\
    forall c', In c' (ranked evs) -> ltb (rank_func c) (rank_func c') = false.
Proof.
  unfold solve. unfold bind at 1.
  destruct (seed n w) as [[l0|] w0] eqn:E0; [|discriminate].
  unfold bind at 1.
  destruct (steps n (Z.to_nat k) l0 w0) as [[l'|] w1] eqn:E1; [|discriminate].
  intros [= <- <-].
  destruct (seeding_leads n w l0 w0 E0) as (Hnext & evs0 & Hev0 & Hlead0).
  destruct (generations_leads n (Z.to_nat k) l0 l' w0 w1 evs0 Hnext Hlead0 E1)
    as (evs1 & Hev1 & Hsc & Hin & Hmax).
  exists (evs0 ++ evs1). split; [by rewrite Hev1, Hev0, app_assoc|].
  split; [exact Hin|]. intros c' Hc'. rewrite <- Hsc. by apply Hmax.
Qed.

End Maximality.

End SolverAccounting.

(** *** The added properties on concrete inputs *)

Lemma Zltb_negtrans (a b c : Z) :
  (a <? b) = false -> (b <? c) = false -> (a <? c) = false.
Proof. rewrite !Z.ltb_ge. lia. Qed.

Lemma mix_crossover_by_coins_witness :
  exists child,
    RandomMixCrossOver_call (H:=counter_engine)
      (mk_RandomMixCrossOver (H:=counter_engine) 1) [true; true; false] [false; true; true]
    = Some (child, @Build_RandomMixCrossOver counter_engine 4) /\
    length child = 3%nat /\
    child !! 0%nat = Some false /\ child !! 1%nat = Some true /\
    child !! 2%nat = Some true.
Proof.
  destruct (mix_crossover_by_coins (H:=counter_engine)
              (mk_RandomMixCrossOver (H:=counter_engine) 1)
              [true; true; false] [false; true; true])
    as (child & Hrun & Hlen & Hbits).
  { intros i c Hi _. apply lookup_lt_Some in Hi. exact Hi. }
  exists child. split; [exact Hrun|]. split; [exact Hlen|].
  split; [exact (Hbits 0%nat 1 eq_refl)|].
  split; [exact (Hbits 1%nat 0 eq_refl) | exact (Hbits 2%nat 1 eq_refl)].
Defined.

Lemma crossover_of_identical_parents_witness :
  0 <= 2 <= Z.of_nat 3 /\
  (exists self',
     RandomSplitCrossOver_call (H:=counter_engine)
       (mk_RandomSplitCrossOver (H:=counter_engine) 3 5) [true; false; true] [true; false; true]
     = Some ([true; false; true], self')) /\
  (exists self',
     RandomMixCrossOver_call (H:=counter_engine)
       (mk_RandomMixCrossOver (H:=counter_engine) 5) [true; false; true] [true; false; true]
     = Some ([true; false; true], self')).
Proof.
  destruct (crossover_of_identical_parents (H:=counter_engine)) as [Hsplit Hmix].
  split; [lia|]. split.
  - apply (Hsplit (mk_RandomSplitCrossOver (H:=counter_engine) 3 5) [true; false; true]).
    vm_compute. split; discriminate.
  - apply (Hmix (mk_RandomMixCrossOver (H:=counter_engine) 5) [true; false; true]).
Defined.

Lemma gated_crossover_recombines_witness :
  exists child w',
    CrossOverOnProbWrapper_call (H:=counter_engine)
      (make_cross_over_on_prob (H:=counter_engine) 5 (1 # 2)
         (mk_RandomMixCrossOver (H:=counter_engine) 1))
      [true; true; false] [false; true; true] = Some (child, w') /\
    length child = 3%nat /\
    forall i, child !! i = [true; true; false] !! i \/
              child !! i = [false; true; true] !! i.
Proof.
  destruct (gated_crossover_recombines (H:=counter_engine) 3 (fun _ => True)
              (mix_recombines (H:=counter_engine) 3)
              (make_cross_over_on_prob (H:=counter_engine) 5 (1 # 2)
                 (mk_RandomMixCrossOver (H:=counter_engine) 1))
              [true; true; false] [false; true; true] I eq_refl eq_refl)
    as (child & w' & Hrun & _ & Hlen & Hbits).
  exists child, w'. split; [exact Hrun|]. split; [exact Hlen | exact Hbits].
Defined.

Lemma cross_over_all_recombines_witness :
  exists children f',
    cross_over_all (mk_RandomSplitCrossOver (H:=counter_engine) 3 0)
      [([true; true; true], [false; false; false]);
       ([true; false; true], [false; true; false])] = Some (children, f') /\
    length children = 2%nat /\
    Forall (fun child => length child = 3%nat) children.
Proof.
  destruct (cross_over_all_recombines (H0:=RandomSplitCrossOver_functor (H:=counter_engine))
              3 (fun f => split_int_hi f = (Z.of_nat 3 - 1) mod size_t_modulus)
              [([true; true; true], [false; false; false]);
               ([true; false; true], [false; true; false])]
              (mk_RandomSplitCrossOver (H:=counter_engine) 3 0)
              (split_recombines (H:=counter_engine) 3 ltac:(lia) ltac:(reflexivity))
              eq_refl)
    as (children & f' & Hrun & _ & Hcount & Hlens).
  { repeat constructor. }
  exists children, f'. split; [exact Hrun|]. split; [exact Hcount | exact Hlens].
Defined.

Lemma prob_gate_saturates_witness :
  let over := make_cross_over_on_prob (H:=counter_engine) 5 (3 # 2)
                (mk_RandomMixCrossOver (H:=counter_engine) 1) in
  let under := make_cross_over_on_prob (H:=counter_engine) 5 (-1 # 2)
                 (mk_RandomMixCrossOver (H:=counter_engine) 1) in
  let a := [true; true] in
  let b := [false; false] in
  ((1 <= wrap_prob over)%Q /\
   CrossOverOnProbWrapper_call (H:=counter_engine) over a b
     = Some ([false; true],
             @Build_CrossOverOnProbWrapper counter_engine _ 6 (3 # 2)
               (@Build_RandomMixCrossOver counter_engine 3))) /\
  ((wrap_prob under <= 0)%Q /\
   exists self',
     (CrossOverOnProbWrapper_call (H:=counter_engine) under a b = Some (a, self') \/
      CrossOverOnProbWrapper_call (H:=counter_engine) under a b = Some (b, self')) /\
     wrap_crossover self' = wrap_crossover under /\
     wrap_prob self' = wrap_prob under).
Proof.
  intros over under a b. split.
  - split; [discriminate|].
    exact (proj1 (prob_gate_saturates (H:=counter_engine) over a b)
             ltac:(discriminate)).
  - split; [discriminate|].
    exact (proj2 (prob_gate_saturates (H:=counter_engine) under a b)
             ltac:(discriminate)).
Defined.

Lemma iteration_follows_selection_witness :
  let l0 : @Locals Z :=
             {| current := [([true; false; false], 1); ([false; true; false], 1)];
               next := [];
               best := ([true; false; false], 1) |} in
  next l0 = [] /\
  (exists w', sample_generation 1 l0 (sample_world 0) = (Undefined, w')) /\
  (exists l' w', sample_generation 3 l0 (sample_world 0) = (Ok l', w') /\
                 length (current l') = 3%nat /\ next l' = []).
Proof.
  intros l0. split; [reflexivity|]. split.
  - exact (proj1 (iteration_follows_selection Z.ltb sample_select
                    sample_cross_over sample_mutate sample_rank
                    1 l0 (sample_world 0) eq_refl) eq_refl).
  - exact (proj2 (iteration_follows_selection Z.ltb sample_select
                    sample_cross_over sample_mutate sample_rank
                    3 l0 (sample_world 0) eq_refl) ltac:(discriminate)).
Defined.

Lemma solve_returns_with_full_population_witness :
  selection_exact sample_select /\ 2 <= 3 < size_t_modulus /\
  exists (l' : @Locals Z) w',
    sample_solve 4 3 (sample_world 0) = (Ok (fst (best l')), w') /\
    Z.of_nat (length (current l')) = 3 /\ next l' = [].
Proof.
  split; [exact sample_selection_exact|].
  split; [split; [lia | reflexivity]|].
  destruct (solve_returns_with_full_population Z.ltb sample_init sample_select
              sample_cross_over sample_mutate sample_rank 4 3 (sample_world 0)
              sample_selection_exact ltac:(split; [lia | reflexivity]))
    as (l0 & w0 & l' & w' & _ & _ & Hrun & Hsize & Hnext).
  exists l', w'. split; [exact Hrun|]. split; [exact Hsize | exact Hnext].
Defined.

Lemma solve_call_counts_witness :
  selection_exact sample_select /\ 2 <= 3 < size_t_modulus /\ 0 <= 4 /\
  exists c w' evs,
    sample_solve 4 3 (sample_world 0) = (Ok c, w') /\
    calls w' = evs /\
    Z.of_nat (count_calls KInitializer evs) = 3 /\
    Z.of_nat (count_calls KSelection evs) = 4 /\
    requested evs = [2; 2; 2; 2] /\
    Z.of_nat (count_calls KCrossOver evs) = 8 /\
    Z.of_nat (count_calls KMutation evs) = 8 /\
    Z.of_nat (count_calls KRank evs) = 15.
Proof.
  split; [exact sample_selection_exact|].
  split; [split; [lia | reflexivity]|]. split; [lia|].
  exact (solve_call_counts Z.ltb sample_init sample_select
           sample_cross_over sample_mutate sample_rank 4 3 (sample_world 0)
           sample_selection_exact ltac:(split; [lia | reflexivity]) ltac:(lia)).
Defined.

Lemma returned_genotype_is_best_ranked_witness :
  exists w' evs,
    sample_solve 3 3 (sample_world 0) = (Ok [true; true; false], w') /\
    calls w' = evs /\
    In [true; true; false] (ranked evs) /\
    forall c', In c' (ranked evs) ->
      (sample_rank [true; true; false] <? sample_rank c') = false.
Proof.
  let r := eval vm_compute in (sample_solve 3 3 (sample_world 0)) in
  lazymatch r with
  | (Ok ?c, ?w') =>
      destruct (returned_genotype_is_best_ranked Z.ltb sample_init sample_select
                  sample_cross_over sample_mutate sample_rank
                  Z.ltb_irrefl Zltb_trans Zltb_negtrans
                  3 3 (sample_world 0) w' c eq_refl)
        as (evs & Hev & Hin & Hmax);
      exists w', evs; split; [reflexivity|];
      split; [exact Hev|]; split; [exact Hin | exact Hmax]
  end.
Defined.
